(** * EventEmitter (src/events/EventEmitter.js): a namespace-keyed
    publish/subscribe registry, embedded with explicit state passing.

    JavaScript arrays and function objects are shared mutable objects, so
    the embedding keeps them in two append-only stores and lets the
    emitter, the trie and the running [emit] loop hold addresses. *)

From stdpp Require Import gmap strings list fin_maps.
From Stdlib Require Import ZArith Lia.

Local Open Scope string_scope.
Local Open Scope list_scope.
Local Open Scope nat_scope.

(** ** Values *)

(** The JavaScript values that reach the emitter.  [VFn f] is the function
    object stored at index [f] of the function store, so [===] on functions
    is equality of indices. [VEmitter] is the registry instance ([this]). *)
Inductive Value : Type :=
  | VUndef
  | VNull
  | VNum (n : Z)
  | VStr (s : string)
  | VPath (p : list string)
  | VFn (f : nat)
  | VEmitter.

#[global] Instance Value_eq_dec : EqDecision Value.
Proof. solve_decision. Defined.

(** [typeof v === 'function'] *)
Definition is_function (v : Value) : bool :=
  match v with VFn _ => true | _ => false end.

(** JavaScript truthiness, as used by [if (listeners[i])] and
    [if (opt_event)]. *)
Definition truthy (v : Value) : bool :=
  match v with
  | VUndef | VNull => false
  | VNum n => negb (n =? 0)%Z
  | VStr s => negb (String.eqb s "")
  | VPath _ | VFn _ | VEmitter => true
  end.

(** An event argument: a name (string) or an already split path (the
    non-string branch of [splitNamespaces]). *)
Inductive Event : Type :=
  | EvStr (s : string)
  | EvPath (p : list string).

#[global] Instance Event_eq_dec : EqDecision Event.
Proof. solve_decision. Defined.

Definition event_value (e : Event) : Value :=
  match e with EvStr s => VStr s | EvPath p => VPath p end.

(** ** String.prototype.split *)

Module JsString.

Fixpoint is_prefix (p s : string) : bool :=
  match p, s with
  | EmptyString, _ => true
  | String a p', String b s' => if Ascii.eqb a b then is_prefix p' s' else false
  | String _ _, EmptyString => false
  end.

Definition snoc (s : string) (c : Ascii.ascii) : string :=
  s +:+ String c EmptyString.

(** Scans [s] left to right; [skip] counts the characters of a matched
    separator still to be dropped, [cur] is the segment being built. *)
Fixpoint split_go (sep : string) (skip : nat) (cur : string) (s : string)
  : list string :=
  match s with
  | EmptyString => [cur]
  | String c s' =>
      match skip with
      | S k => split_go sep k cur s'
      | O =>
          if is_prefix sep s
          then cur :: split_go sep (String.length sep - 1) EmptyString s'
          else split_go sep O (snoc cur c) s'
      end
  end.

Fixpoint chars (s : string) : list string :=
  match s with
  | EmptyString => []
  | String c s' => String c EmptyString :: chars s'
  end.

(** [s.split(sep)]: an undefined separator yields the whole string as the
    only element; the empty separator yields the characters. *)
Definition split (s : string) (sep : option string) : list string :=
  match sep with
  | None => [s]
  | Some EmptyString => chars s
  | Some d => split_go d O EmptyString s
  end.

End JsString.

(** ** The namespace trie *)

Module Trie.

(** Modelled from the spec: the source of [lfr.Trie] is not part of the
    repository files at hand. A node optionally owns a value and maps
    segment strings to child nodes. *)
#[local] Unset Elimination Schemes.
Inductive t (V : Type) : Type :=
  | Node (value : option V) (children : gmap string (t V)).
#[local] Set Elimination Schemes.
Arguments Node {V} value children.

(** Modelled from the spec: the value a node owns, if any. *)
Definition value {V} (n : t V) : option V :=
  match n with Node v _ => v end.
(** Modelled from the spec: the mapping from segment to child node. *)
Definition children {V} (n : t V) : gmap string (t V) :=
  match n with Node _ c => c end.

(** Modelled from the spec: the tree before any [setValue]. *)
Definition empty {V} : t V := Node None ∅.

(** Modelled from the spec: [getValue(pathSegments)] returns the value
    stored at the exact path, or absent. *)
Fixpoint getKeyValue {V} (n : t V) (path : list string) : option V :=
  match path with
  | [] => value n
  | s :: rest =>
      match children n !! s with
      | Some c => getKeyValue c rest
      | None => None
      end
  end.

Section SetKeyValue.
Context {V S : Type}.
(** The optional merge callback may mutate the values it is given, so it
    threads the store [S]. *)
Variable mergeFn : option (V → V → S → V * S).

(** Modelled from the spec: the value kept at the terminal node. With no
    merge callback (as [removeAllListeners] calls it) the new value
    replaces the old one. *)
Definition store_at (old : option V) (new : V) (s : S) : V * S :=
  match old, mergeFn with
  | Some existing, Some f => f existing new s
  | _, _ => (new, s)
  end.

(** Modelled from the spec: [setValue(pathSegments, newValue, mergeFn)]
    walks or creates the nodes of the path; at the terminal node an
    existing value is combined with [mergeFn(existing, new)], otherwise
    the new value is stored. The stored value is returned. *)
Fixpoint setKeyValue (n : t V) (path : list string) (new : V) (s : S)
  : t V * V * S :=
  match path with
  | [] =>
      let '(v, s') := store_at (value n) new s in
      (Node (Some v) (children n), v, s')
  | seg :: rest =>
      let child := default empty (children n !! seg) in
      let '(child', v, s') := setKeyValue child rest new s in
      (Node (value n) (<[seg := child']> (children n)), v, s')
  end.
End SetKeyValue.

(** Modelled from the spec: [clear()] discards all nodes. *)
Definition clear {V} (n : t V) : t V := empty.

End Trie.

(** ** Objects and the world *)

(** A listener array: the ordered entries and the [warned] property that
    [addListener] sets on the array object itself. *)
Record Arr : Type := mkArr { elems : list Value; warned : bool }.

(** What the body of a caller-supplied listener may do with the emitter it
    is applied to ([this]). *)
Inductive Cmd : Type :=
  | COn (event : Event) (listener : Value)
  | COff (event : Event) (listener : Value)
  | COnAny (listener : Value)
  | COffAny (listener : Value)
  | CMany (event : Event) (amount : Z) (listener : Value)
  | COnce (event : Event) (listener : Value)
  | CEmit (event : Event) (args : list Value)
  | CRemoveAllListeners (opt_event : option Event)
  | CSetDelimiter (delimiter : string)
  | CSetMaxListeners (max : Z)
  | CThrow.

(** A function object: a caller-supplied listener, or the closure
    [handlerInternal] that [many] creates, with its captured variables
    [event], [amount] (decremented in place) and [listener]. *)
Inductive FnObj : Type :=
  | UserFn (body : list Cmd)
  | HandlerInternal (event : Event) (amount : Z) (listener : Value).

(** The fields of [lfr.EventEmitter]; [all_] and the trie values are
    addresses of listener arrays, [None] standing for [null]. *)
Record Emitter : Type := mkEmitter {
  all_ : option nat;
  delimiter_ : string;
  listenersTree_ : Trie.t nat;
  maxListeners_ : Z
}.

(** One application [f.apply(thisArg, args)]. *)
Record Call : Type := mkCall {
  callee : nat;
  this_arg : Value;
  call_args : list Value
}.

(** One line printed through the host console: the method used, the
    listener count and the event of the leak message. *)
Record Diag : Type := mkDiag {
  diag_method : string;
  diag_count : nat;
  diag_event : Event
}.

Record World : Type := mkWorld {
  self : Emitter;
  arrays : list Arr;
  funs : list FnObj;
  console : list string;   (* the methods the host [console] object has *)
  printed : list Diag;
  calls : list Call
}.

Inductive Err : Type :=
  | TypeError (msg : string)
  | Thrown.

(** Outcome of a call: normal return, exception (the mutations made before
    the throw stay), or an exhausted step budget. *)
Inductive Res (A : Type) : Type :=
  | Ret (a : A) (w : World)
  | Raise (e : Err) (w : World)
  | OutOfFuel.
Arguments Ret {A} a w.
Arguments Raise {A} e w.
Arguments OutOfFuel {A}.

Definition bind {A B} (r : Res A) (k : A → World → Res B) : Res B :=
  match r with
  | Ret a w => k a w
  | Raise e w => Raise e w
  | OutOfFuel => OutOfFuel
  end.

Notation "'run' a , w := r 'in' k" := (bind r (fun a w => k))
  (at level 10, a name, w name, r at level 100, k at level 200).

Definition set_self (e : Emitter) (w : World) : World :=
  mkWorld e (arrays w) (funs w) (console w) (printed w) (calls w).
Definition set_arrays (h : list Arr) (w : World) : World :=
  mkWorld (self w) h (funs w) (console w) (printed w) (calls w).
Definition set_funs (fs : list FnObj) (w : World) : World :=
  mkWorld (self w) (arrays w) fs (console w) (printed w) (calls w).
Definition set_printed (p : list Diag) (w : World) : World :=
  mkWorld (self w) (arrays w) (funs w) (console w) p (calls w).
Definition set_calls (c : list Call) (w : World) : World :=
  mkWorld (self w) (arrays w) (funs w) (console w) (printed w) c.

Definition set_all (a : option nat) (e : Emitter) : Emitter :=
  mkEmitter a (delimiter_ e) (listenersTree_ e) (maxListeners_ e).
Definition set_delimiter (d : string) (e : Emitter) : Emitter :=
  mkEmitter (all_ e) d (listenersTree_ e) (maxListeners_ e).
Definition set_tree (t : Trie.t nat) (e : Emitter) : Emitter :=
  mkEmitter (all_ e) (delimiter_ e) t (maxListeners_ e).
Definition set_max (m : Z) (e : Emitter) : Emitter :=
  mkEmitter (all_ e) (delimiter_ e) (listenersTree_ e) m.

(** ** Arrays in the store *)

(** An array literal: a new object at the next free address. *)
Definition new_array (l : list Value) (h : list Arr) : nat * list Arr :=
  (length h, h ++ [mkArr l false]).

Definition read (h : list Arr) (a : nat) : list Value :=
  match h !! a with Some arr => elems arr | None => [] end.

Definition push (a : nat) (v : Value) (h : list Arr) : list Arr :=
  alter (λ arr, mkArr (elems arr ++ [v]) (warned arr)) a h.

Definition set_elems (a : nat) (l : list Value) (h : list Arr) : list Arr :=
  alter (λ arr, mkArr l (warned arr)) a h.

Definition set_warned (a : nat) (h : list Arr) : list Arr :=
  alter (λ arr, mkArr (elems arr) true) a h.

(** [mergeListenerArrays_(arr1, arr2)]: pushes the entries of [arr2] onto
    [arr1] and returns [arr1] itself. [arr2] is always the fresh literal
    [[listener]], a different object from [arr1]. *)
Definition mergeListenerArrays_ (arr1 arr2 : nat) (h : list Arr)
  : nat * list Arr :=
  (arr1, foldl (λ h' v, push arr1 v h') h (read h arr2)).

(** ** The host console *)

(** The methods of the [console] namespace of the WHATWG Console Standard,
    which browsers and Node implement. *)
Definition standard_console : list string :=
  ["assert"; "clear"; "count"; "countReset"; "debug"; "dir"; "dirxml";
   "error"; "group"; "groupCollapsed"; "groupEnd"; "info"; "log"; "table";
   "time"; "timeEnd"; "timeLog"; "trace"; "warn"].

(** [console.<method>(...)]: prints when the host console has the method;
    calling a property that is undefined throws a TypeError. *)
Definition console_call (method : string) (count : nat) (event : Event)
  (w : World) : Res unit :=
  if bool_decide (method ∈ console w)
  then Ret tt (set_printed (printed w ++ [mkDiag method count event]) w)
  else Raise (TypeError ("console." +:+ method +:+ " is not a function")) w.

(** ** The methods of [lfr.EventEmitter.prototype] *)

(** Reads a string-valued property of the emitter by name. Only
    [delimiter_] is defined (on the prototype, or on the instance after
    [setDelimiter]); any other name reads as [undefined]. *)
Definition get_string_prop (e : Emitter) (name : string) : option string :=
  if String.eqb name "delimiter_" then Some (delimiter_ e) else None.

(** [splitNamespaces(event)]: the source reads [this.delimiter]. *)
Definition splitNamespaces (w : World) (event : Event) : list string :=
  match event with
  | EvStr s => JsString.split s (get_string_prop (self w) "delimiter")
  | EvPath p => p
  end.

Definition getDelimiter (w : World) : string := delimiter_ (self w).

Definition setDelimiter (delimiter : string) (w : World) : Res Value :=
  Ret VEmitter (set_self (set_delimiter delimiter (self w)) w).

Definition setMaxListeners (max : Z) (w : World) : Res Value :=
  Ret VEmitter (set_self (set_max max (self w)) w).

(** [listeners(event)]: the live array stored at the path, or absent. *)
Definition listeners (w : World) (event : Event) : option nat :=
  Trie.getKeyValue (listenersTree_ (self w)) (splitNamespaces w event).

Definition listenersAny (w : World) : option nat := all_ (self w).

(** [fn.origin]: set by [many] on its closure, undefined elsewhere. *)
Definition origin (w : World) (f : nat) : Value :=
  match funs w !! f with
  | Some (HandlerInternal _ _ listener) => listener
  | _ => VUndef
  end.

(** The test of the [off] loop on one entry, for a [listener] that is the
    function [f]: [Some true] when the entry matches, [None] when reading
    [.origin] of [null] or [undefined] throws. *)
Definition off_test (w : World) (f : nat) (entry : Value) : option bool :=
  if bool_decide (entry = VFn f) then Some true
  else match entry with
       | VUndef | VNull => None
       | VFn g => Some (truthy (origin w g) && bool_decide (origin w g = VFn f))
       | _ => Some false
       end.

(** The [off] loop: splice out the first matching entry and stop. *)
Fixpoint off_scan (w : World) (f : nat) (l : list Value)
  : option (list Value) :=
  match l with
  | [] => Some []
  | entry :: rest =>
      match off_test w f entry with
      | None => None
      | Some true => Some rest
      | Some false => cons entry <$> off_scan w f rest
      end
  end.

Definition off (event : Event) (listener : Value) (w : World) : Res Value :=
  match listener with
  | VFn f =>
      match listeners w event with
      | Some a =>
          match off_scan w f (read (arrays w) a) with
          | Some l => Ret VEmitter (set_arrays (set_elems a l (arrays w)) w)
          | None => Raise (TypeError "Cannot read property 'origin'") w
          end
      | None => Ret VEmitter w
      end
  | _ => Raise (TypeError "Listener must be a function") w
  end.

Definition removeListener := off.

(** [indexOf] followed by [splice(i, 1)]. *)
Fixpoint remove_first (f : nat) (l : list Value) : list Value :=
  match l with
  | [] => []
  | entry :: rest =>
      if bool_decide (entry = VFn f) then rest else entry :: remove_first f rest
  end.

Definition offAny (listener : Value) (w : World) : Res Value :=
  match listener with
  | VFn f =>
      match all_ (self w) with
      | None => Ret VEmitter w
      | Some a =>
          Ret VEmitter
            (set_arrays (set_elems a (remove_first f (read (arrays w) a))
                           (arrays w)) w)
      end
  | _ => Raise (TypeError "Listener must be a function") w
  end.

Definition onAny (listener : Value) (w : World) : Res Value :=
  let '(a, w1) :=
    match all_ (self w) with
    | Some a => (a, w)
    | None =>
        let '(a, h) := new_array [] (arrays w) in
        (a, set_self (set_all (Some a) (self w)) (set_arrays h w))
    end in
  Ret VEmitter (set_arrays (push a listener (arrays w1)) w1).

(** The [else] branch of [removeAllListeners]: [listenersTree_.clear()]
    and [delete this.all_], after which [all_] reads as the prototype's
    [null]. *)
Definition clear_everything (w : World) : World :=
  set_self (set_all None
              (set_tree (Trie.clear (listenersTree_ (self w))) (self w))) w.

(** [removeAllListeners(opt_event)]; [None] is a call without argument.
    The branch is taken on the truthiness of [opt_event]. *)
Definition removeAllListeners (opt_event : option Event) (w : World)
  : Res Value :=
  match opt_event with
  | Some event =>
      if truthy (event_value event) then
        let '(b, h) := new_array [] (arrays w) in
        let '(tree, _, h') :=
          Trie.setKeyValue None (listenersTree_ (self w))
            (splitNamespaces w event) b h in
        Ret VEmitter (set_self (set_tree tree (self w)) (set_arrays h' w))
      else Ret VEmitter (clear_everything w)
  | None => Ret VEmitter (clear_everything w)
  end.

(** The methods below apply listeners, which may call back into the
    emitter. They are written against [apply_fn], the meaning of
    [f.apply(this, args)] one level down, and a [budget] of loop
    iterations; [apply_function] ties the knot. *)
Section Reentrant.

Variable apply_fn : Value → list Value → World → Res Value.
Variable budget : nat.

(** The array object the [emit] loop walks: the fresh result of [concat],
    which nothing else can reach, or the live [all_] array. *)
Inductive Walked : Type :=
  | Fresh (l : list Value)
  | Live (a : nat).

Definition walked_elems (w : World) (it : Walked) : list Value :=
  match it with
  | Fresh l => l
  | Live a => read (arrays w) a
  end.

(** [for (i = 0; i < listeners.length; i++) if (listeners[i]) {...}]; the
    length is read again on every round. *)
Fixpoint emit_loop (n : nat) (it : Walked) (i : nat) (args : list Value)
  (listened : bool) (w : World) : Res bool :=
  match n with
  | O => OutOfFuel
  | S n' =>
      match walked_elems w it !! i with
      | None => Ret listened w
      | Some v =>
          if truthy v then
            run _, w' := apply_fn v args w in
            emit_loop n' it (S i) args true w'
          else emit_loop n' it (S i) args listened w
      end
  end.

(** What [concat] appends for the argument [this.all_]: the entries of
    the array, or the single element [null] when [all_] is [null]. *)
Definition concat_operand (w : World) : list Value :=
  match all_ (self w) with
  | Some b => read (arrays w) b
  | None => [VNull]
  end.

(** [listeners.concat(this.all_)] *)
Definition concat_all (w : World) (a : nat) : list Value :=
  read (arrays w) a ++ concat_operand w.

Definition emit (event : Event) (args : list Value) (w : World) : Res bool :=
  match listeners w event with
  | Some a => emit_loop budget (Fresh (concat_all w a)) 0 args false w
  | None =>
      match all_ (self w) with
      | Some b => emit_loop budget (Live b) 0 args false w
      | None => Ret false w
      end
  end.

Definition addListener (event : Event) (listener : Value) (w : World)
  : Res Value :=
  if negb (is_function listener)
  then Raise (TypeError "Listener must be a function") w
  else
    run _, w1 := emit (EvStr "newListener") [event_value event; listener] w in
    let '(b, h) := new_array [listener] (arrays w1) in
    let '(tree, a, h') :=
      Trie.setKeyValue (Some mergeListenerArrays_) (listenersTree_ (self w1))
        (splitNamespaces w1 event) b h in
    let w2 := set_self (set_tree tree (self w1)) (set_arrays h' w1) in
    let len := length (read (arrays w2) a) in
    let was_warned :=
      match arrays w2 !! a with Some arr => warned arr | None => false end in
    if (maxListeners_ (self w2) <? Z.of_nat len)%Z && negb was_warned then
      run _, w3 := console_call "warning" len event w2 in
      Ret VEmitter (set_arrays (set_warned a (arrays w3)) w3)
    else Ret VEmitter w2.

Definition on := addListener.

Definition many (event : Event) (amount : Z) (listener : Value) (w : World)
  : Res Value :=
  if (amount <=? 0)%Z then Ret VUndef w
  else
    let handlerInternal := length (funs w) in
    let w1 :=
      set_funs (funs w ++ [HandlerInternal event amount listener]) w in
    run _, w2 := on event (VFn handlerInternal) w1 in
    Ret VEmitter w2.

Definition once (event : Event) (listener : Value) (w : World) : Res Value :=
  many event 1 listener w.

Definition exec_cmd (c : Cmd) (w : World) : Res unit :=
  match c with
  | COn event listener => run _, w' := on event listener w in Ret tt w'
  | COff event listener => run _, w' := off event listener w in Ret tt w'
  | COnAny listener => run _, w' := onAny listener w in Ret tt w'
  | COffAny listener => run _, w' := offAny listener w in Ret tt w'
  | CMany event amount listener =>
      run _, w' := many event amount listener w in Ret tt w'
  | COnce event listener => run _, w' := once event listener w in Ret tt w'
  | CEmit event args => run _, w' := emit event args w in Ret tt w'
  | CRemoveAllListeners opt_event =>
      run _, w' := removeAllListeners opt_event w in Ret tt w'
  | CSetDelimiter d => run _, w' := setDelimiter d w in Ret tt w'
  | CSetMaxListeners m => run _, w' := setMaxListeners m w in Ret tt w'
  | CThrow => Raise Thrown w
  end.

Fixpoint exec_body (body : list Cmd) (w : World) : Res unit :=
  match body with
  | [] => Ret tt w
  | c :: rest => run _, w' := exec_cmd c w in exec_body rest w'
  end.

(** The body of the closure [handlerInternal] created by [many], for the
    closure stored at [h]. *)
Definition handlerInternal_body (h : nat) (event : Event) (amount : Z)
  (listener : Value) (args : list Value) (w : World) : Res Value :=
  let amount' := (amount - 1)%Z in
  let w1 :=
    set_funs (<[h := HandlerInternal event amount' listener]> (funs w)) w in
  run _, w2 :=
    (if (amount' =? 0)%Z then removeListener event (VFn h) w1
     else Ret VEmitter w1) in
  run _, w3 := apply_fn listener args w2 in
  Ret VUndef w3.

(** One application [v.apply(this, args)] with [this] the emitter: a
    value without an [apply] method throws; a function is recorded in
    [calls] and its body run. *)
Definition apply_body (v : Value) (args : list Value) (w : World)
  : Res Value :=
  match v with
  | VFn f =>
      match funs w !! f with
      | Some fo =>
          let w0 := set_calls (calls w ++ [mkCall f VEmitter args]) w in
          match fo with
          | UserFn body => run _, w' := exec_body body w0 in Ret VUndef w'
          | HandlerInternal event amount listener =>
              handlerInternal_body f event amount listener args w0
          end
      | None => Raise (TypeError "apply is not a function") w
      end
  | _ => Raise (TypeError "apply is not a function") w
  end.

End Reentrant.

(** [fuel] bounds both the depth of nested applications and the rounds of
    each [emit] loop. *)
Fixpoint apply_function (fuel : nat) (v : Value) (args : list Value)
  (w : World) : Res Value :=
  match fuel with
  | O => OutOfFuel
  | S k => apply_body (apply_function k) k v args w
  end.

(** The public methods, run with [fuel]. *)
Module Run.
Definition emit (fuel : nat) := emit (apply_function fuel) fuel.
Definition addListener (fuel : nat) := addListener (apply_function fuel) fuel.
Definition on (fuel : nat) := on (apply_function fuel) fuel.
Definition many (fuel : nat) := many (apply_function fuel) fuel.
Definition once (fuel : nat) := once (apply_function fuel) fuel.
End Run.

(** [new lfr.EventEmitter()] in a host with the given console, together
    with the function objects the caller has defined. *)
Definition EventEmitter : Emitter := mkEmitter None "." Trie.empty 10.

Definition world (host_console : list string) (defs : list FnObj) : World :=
  mkWorld EventEmitter [] defs host_console [] [].

(** ** Notions used to state the properties *)

(** The entries registered for [event], and the unscoped entries; an
    absent list reads as no entries. *)
Definition scoped (w : World) (event : Event) : list Value :=
  match listeners w event with
  | Some a => read (arrays w) a
  | None => []
  end.

Definition unscoped (w : World) : list Value :=
  match listenersAny w with
  | Some b => read (arrays w) b
  | None => []
  end.

(** A listener whose body does nothing with the emitter. *)
Definition passive (w : World) (v : Value) : Prop :=
  ∃ f, v = VFn f ∧ funs w !! f = Some (UserFn []).

Definition fn_index (v : Value) : option nat :=
  match v with VFn f => Some f | _ => None end.

(** The applications [emit] makes for the entries [l] with [args]. *)
Definition applications (args : list Value) (l : list Value) : list Call :=
  (λ f, mkCall f VEmitter args) <$> omap fn_index l.

(** How often the function [f] was applied in a call record. *)
Definition invocations (f : nat) (cs : list Call) : nat :=
  length (filter (λ c, callee c = f) cs).

(** [emit(event, ...args)] issued [m] times in a row. *)
Fixpoint emit_times (fuel m : nat) (event : Event) (args : list Value)
  (w : World) : Res bool :=
  match m with
  | O => Ret false w
  | S m' =>
      run _, w' := Run.emit fuel event args w in
      emit_times fuel m' event args w'
  end.

(** The entry [entry] is the function [f] or a wrapper of it. *)
Definition matches (w : World) (f : nat) (entry : Value) : Prop :=
  entry = VFn f ∨ ∃ g, entry = VFn g ∧ origin w g = VFn f.

(** Walking a fixed sequence of entries front to back and applying each
    truthy one once: what iterating over a stable copy means. *)
Fixpoint visit_each (apply_fn : Value → list Value → World → Res Value)
  (args : list Value) (l : list Value) (listened : bool) (w : World)
  : Res bool :=
  match l with
  | [] => Ret listened w
  | v :: rest =>
      if truthy v then
        run _, w' := apply_fn v args w in
        visit_each apply_fn args rest true w'
      else visit_each apply_fn args rest listened w
  end.

(** The splitting the documentation describes: by the configured
    delimiter [delimiter_]. *)
Definition splitNamespaces_documented (w : World) (event : Event)
  : list string :=
  match event with
  | EvStr s => JsString.split s (get_string_prop (self w) "delimiter_")
  | EvPath p => p
  end.

(** The world a call leaves behind, whether it returned or threw. *)
Definition world_of {A} (r : Res A) : option World :=
  match r with
  | Ret _ w | Raise _ w => Some w
  | OutOfFuel => None
  end.

(** A sequence of calls on the emitter, stopping at the first throw. *)
Definition chain (ops : list (World → Res Value)) (w : World) : Res Value :=
  foldl (λ r op, run _, w' := r in op w') (Ret VUndef w) ops.

(** The world a chain of calls ends in. *)
Definition final (r : Res Value) : World :=
  match world_of r with
  | Some w => w
  | None => mkWorld (mkEmitter None "." Trie.empty 10) [] [] [] [] []
  end.

(** [removeAllListeners(event)] read as: whatever name is supplied, only
    the list at its path is reset; the lists at other paths and the
    unscoped list stay. *)
Definition resets_only_its_path (w : World) (event : Event) : Prop :=
  ∃ w', removeAllListeners (Some event) w = Ret VEmitter w'
        ∧ scoped w' event = []
        ∧ (∀ q, splitNamespaces w q ≠ splitNamespaces w event →
                listeners w' q = listeners w q)
        ∧ listenersAny w' = listenersAny w.

(** The functions applied so far, oldest first. *)
Definition applied (w : World) : list nat := callee <$> calls w.

(** What a run leaves to observe: whether it returned, the functions
    applied, the entries under an event and the unscoped entries. *)
Definition observe {A} (event : Event) (r : Res A)
  : option (option A * list nat * list Value * list Value) :=
  match r with
  | Ret a w => Some (Some a, applied w, scoped w event, unscoped w)
  | Raise _ w => Some (None, applied w, scoped w event, unscoped w)
  | OutOfFuel => None
  end.

(** The shape of the world [k] emissions after [many(event, n, L)] was
    called with the functions [fs] defined: the wrapper is the next
    function, its counter stands at [n - min k n], the list [a] of the
    event holds it until the counter reaches zero, [tail] is what [emit]
    appends for the unscoped list, and [L] was applied [min k n] times on
    top of the [c] applications before. *)
Definition counting_down (event : Event) (n L : nat) (fs : list FnObj)
  (tail : list Value) (c a k : nat) (w' : World) : Prop :=
  listeners w' event = Some a
  ∧ a < length (arrays w')
  ∧ all_ (self w') ≠ Some a
  ∧ funs w'
    = fs ++ [HandlerInternal event (Z.of_nat n - Z.of_nat (min k n))
               (VFn L)]
  ∧ read (arrays w') a = (if decide (k < n) then [VFn (length fs)] else [])
  ∧ concat_operand w' = tail
  ∧ invocations L (calls w') = c + min k n.

(** What a registration leaves to observe about the leak warning: the
    error thrown if any, the number of entries under the event, the
    [warned] flag of its list, and the lines printed on the console. *)
Definition report (event : Event) (r : Res Value)
  : option (option Err * nat * bool * list Diag) :=
  match r with
  | OutOfFuel => None
  | Ret _ w | Raise _ w =>
      Some (match r with Raise e _ => Some e | _ => None end,
            length (scoped w event),
            match listeners w event with
            | Some a =>
                match arrays w !! a with
                | Some arr => warned arr
                | None => false
                end
            | None => false
            end,
            printed w)
  end.

(** A host whose console also has a method called [warning]. *)
Definition console_with_warning : list string :=
  "warning" :: standard_console.

(** Ten listeners registered under ["x"] on a new emitter. *)
Definition ten_listeners (host_console : list string) : World :=
  final (chain (replicate 10 (Run.on 2 (EvStr "x") (VFn 0)))
           (world host_console [UserFn []])).

(** The entries stored at a path of the trie. *)
Definition scoped_at (w : World) (path : list string) : list Value :=
  match Trie.getKeyValue (listenersTree_ (self w)) path with
  | Some a => read (arrays w) a
  | None => []
  end.

(** Well-formedness of the store: every list the emitter holds is an
    allocated array, and no array is held twice. *)
Definition tidy (w : World) : Prop :=
  (∀ p a, Trie.getKeyValue (listenersTree_ (self w)) p = Some a →
          a < length (arrays w))
  ∧ (∀ p q a, Trie.getKeyValue (listenersTree_ (self w)) p = Some a →
              Trie.getKeyValue (listenersTree_ (self w)) q = Some a →
              p = q)
  ∧ (∀ b, all_ (self w) = Some b →
          b < length (arrays w)
          ∧ ∀ p, Trie.getKeyValue (listenersTree_ (self w)) p ≠ Some b).

(** A registration made by the caller: [on(event, f)] or [onAny(f)]. *)
Inductive Reg : Type :=
  | RegOn (event : Event) (f : nat)
  | RegAny (f : nat).

Definition reg_fn (r : Reg) : nat :=
  match r with RegOn _ f | RegAny f => f end.

(** One registration; the world it leaves is kept also when the call
    throws. *)
Definition register (fuel : nat) (r : Reg) (w : World) : World :=
  match r with
  | RegOn event f => default w (world_of (Run.on fuel event (VFn f) w))
  | RegAny f => default w (world_of (onAny (VFn f) w))
  end.

Definition register_all (fuel : nat) (rs : list Reg) (w : World) : World :=
  foldl (λ w' r, register fuel r w') w rs.

(** The functions a script registers under a path, and unscoped, in the
    order of the script. *)
Definition registered_on (w : World) (path : list string) (rs : list Reg)
  : list Value :=
  omap (λ r, match r with
             | RegOn e f =>
                 if decide (splitNamespaces w e = path) then Some (VFn f)
                 else None
             | RegAny _ => None
             end) rs.

Definition registered_any (rs : list Reg) : list Value :=
  omap (λ r, match r with RegAny f => Some (VFn f) | RegOn _ _ => None end)
    rs.

(** Two worlds that hold the same lists: they may differ in the [warned]
    flags, the console output and the call record. *)
Definition same_entries (w' w : World) : Prop :=
  self w' = self w ∧ funs w' = funs w
  ∧ length (arrays w') = length (arrays w)
  ∧ ∀ a, read (arrays w') a = read (arrays w) a.

(** The answer of an [emit] that returned, with the call record. *)
Definition outcome (r : Res bool) : option (bool * list Call) :=
  match r with
  | Ret b w => Some (b, calls w)
  | _ => None
  end.

(** Worlds used to instantiate the properties. *)

(** One listener under ["x"]; function 1 is defined but registered
    nowhere. *)
Definition world_one_listener : World :=
  final (chain [Run.on 2 (EvStr "x") (VFn 0)]
           (world standard_console [UserFn []; UserFn []])).

(** Under ["x"]: a [many] wrapper of function 0, function 0 itself, and
    function 1. *)
Definition world_wrapper_and_duplicate : World :=
  final (chain [Run.many 3 (EvStr "x") 2 (VFn 0);
                Run.on 3 (EvStr "x") (VFn 0);
                Run.on 3 (EvStr "x") (VFn 1)]
           (world standard_console [UserFn []; UserFn []])).

(** Listeners under ["x"] and ["y"] and an unscoped one. *)
Definition world_two_paths : World :=
  final (chain [Run.on 3 (EvStr "x") (VFn 0); Run.on 3 (EvStr "y") (VFn 1);
                onAny (VFn 2)]
           (world standard_console [UserFn []; UserFn []; UserFn []])).

(** A [once] wrapper of function 0 followed by function 1 under ["x"]. *)
Definition world_once_then_other : World :=
  final (chain [Run.once 4 (EvStr "x") (VFn 0); Run.on 4 (EvStr "x") (VFn 1)]
           (world standard_console [UserFn []; UserFn []])).

(** A listener under ["y"] and an unscoped one; function 0 is defined but
    registered nowhere. *)
Definition world_busy : World :=
  register_all 4 [RegOn (EvStr "y") 1; RegAny 2]
    (world standard_console (replicate 3 (UserFn []))).

(** ** Notions for the remaining methods *)

(** The [warned] property of the array at an address; a missing property
    reads as falsy. *)
Definition warned_at (w : World) (a : nat) : bool :=
  match arrays w !! a with
  | Some arr => warned arr
  | None => false
  end.

(** The [warned] property of the list of an event. *)
Definition was_warned (w : World) (event : Event) : bool :=
  match listeners w event with
  | Some a => warned_at w a
  | None => false
  end.

(** The test [addListener] makes after storing one more listener for the
    event: the list is longer than [maxListeners_] and not flagged. *)
Definition exceeds (w : World) (event : Event) : bool :=
  (maxListeners_ (self w) <? Z.of_nat (length (scoped w event) + 1))%Z
  && negb (was_warned w event).

(** The entries [emit] walks for an event: the copy it makes when the
    path has a list, the unscoped entries otherwise. *)
Definition emit_sequence (w : World) (event : Event) : list Value :=
  match listeners w event with
  | Some a => concat_all w a
  | None => unscoped w
  end.

(** An entry [emit] passes without trouble: falsy, or a passive
    listener. *)
Definition quiet (w : World) (v : Value) : Prop :=
  truthy v = false ∨ passive w v.

(** Worlds used to instantiate the further properties. *)

(** One listener under ["x"] with the limit lowered to one listener per
    event, in a host with the given console. *)
Definition world_at_limit (host_console : list string) : World :=
  set_self
    (set_max 1
       (self (register_all 3 [RegOn (EvStr "x") 0]
                (world host_console [UserFn []; UserFn []]))))
    (register_all 3 [RegOn (EvStr "x") 0]
       (world host_console [UserFn []; UserFn []])).

(** A listener under ["newListener"], one under ["y"] and an unscoped
    one; function 0 is registered nowhere. *)
Definition world_observed : World :=
  register_all 5 [RegOn (EvStr "newListener") 3; RegOn (EvStr "y") 1;
                  RegAny 2]
    (world standard_console (replicate 4 (UserFn []))).

(** The unscoped list holds function 1, function 2 and function 1
    again. *)
Definition world_unscoped_twice : World :=
  register_all 5 [RegAny 1; RegAny 2; RegAny 1]
    (world standard_console (replicate 3 (UserFn []))).

(** The unscoped list holds [null] and a function. *)
Definition world_with_null : World :=
  final (chain [onAny VNull; onAny (VFn 0)]
           (world standard_console [UserFn []])).

(** The unscoped list holds a function, the number 42 and the function
    again. *)
Definition world_with_number : World :=
  final (chain [onAny (VFn 0); onAny (VNum 42); onAny (VFn 0)]
           (world standard_console [UserFn []])).

(** Under ["x"]: a passive listener, a listener that throws, and the
    passive one again. *)
Definition world_with_thrower : World :=
  final (chain [Run.on 3 (EvStr "x") (VFn 0); Run.on 3 (EvStr "x") (VFn 1);
                Run.on 3 (EvStr "x") (VFn 0)]
           (world standard_console [UserFn []; UserFn [CThrow]])).

(** Two arrays, the first one flagged. *)
Definition two_arrays : list Arr :=
  [mkArr [VFn 0] true; mkArr [VFn 1; VFn 2] false].

(** * Properties *)

(** ** The trie *)

Section TrieFacts.
Context {V S : Type}.
Implicit Types (n : Trie.t V) (p q : list string).

Lemma getKeyValue_empty p : Trie.getKeyValue (@Trie.empty V) p = None.
Proof. by destruct p. Qed.

Lemma getKeyValue_clear n p : Trie.getKeyValue (Trie.clear n) p = None.
Proof. apply getKeyValue_empty. Qed.

(** What [setKeyValue] stores, returns and leaves alone. *)
Lemma setKeyValue_spec (m : option (V → V → S → V * S)) p :
  ∀ n new s n' v s',
    Trie.setKeyValue m n p new s = (n', v, s') →
    (v, s') = Trie.store_at m (Trie.getKeyValue n p) new s
    ∧ Trie.getKeyValue n' p = Some v
    ∧ ∀ q, q ≠ p → Trie.getKeyValue n' q = Trie.getKeyValue n q.
Proof.
  induction p as [|seg rest IH]; intros n new s n' v s' Hset; simpl in Hset.
  - destruct (Trie.store_at m (Trie.value n) new s) as [v0 s0] eqn:Hst.
    inversion Hset; subst; clear Hset. simpl. split; [done|]. split; [done|].
    intros [|seg q] Hq; [done|]. done.
  - destruct (Trie.setKeyValue m (default Trie.empty (Trie.children n !! seg))
                rest new s) as [[c' v0] s0] eqn:Hrec.
    inversion Hset; subst; clear Hset.
    destruct (IH _ _ _ _ _ _ Hrec) as (Hst & Hget & Hother).
    simpl. rewrite lookup_insert_eq. split; [|split; [done|]].
    + rewrite Hst. destruct (Trie.children n !! seg) as [c|]; simpl; [done|].
      by rewrite getKeyValue_empty.
    + intros [|seg' q] Hq; [done|]. simpl.
      destruct (decide (seg' = seg)) as [->|Hne].
      * rewrite lookup_insert_eq, Hother by congruence.
        destruct (Trie.children n !! seg); simpl; [done|].
        apply getKeyValue_empty.
      * by rewrite lookup_insert_ne.
Qed.

End TrieFacts.

(** ** The array store *)

Lemma read_app_old (h : list Arr) (x : list Arr) a :
  a < length h → read (h ++ x) a = read h a.
Proof. intros Ha. unfold read. by rewrite lookup_app_l. Qed.

Lemma read_new (h : list Arr) l : read (h ++ [mkArr l false]) (length h) = l.
Proof. unfold read. by rewrite list_lookup_middle. Qed.

Lemma read_push_eq (h : list Arr) a v :
  a < length h → read (push a v h) a = read h a ++ [v].
Proof.
  intros Ha. unfold read, push. rewrite list_lookup_alter_eq.
  destruct (lookup_lt_is_Some_2 h a Ha) as [arr ->]. done.
Qed.

Lemma read_push_ne (h : list Arr) a b v :
  a ≠ b → read (push a v h) b = read h b.
Proof. intros Hne. unfold read, push. by rewrite list_lookup_alter_ne. Qed.

Lemma length_push (h : list Arr) a v : length (push a v h) = length h.
Proof. apply length_alter. Qed.

Lemma read_set_elems_eq (h : list Arr) a l :
  a < length h → read (set_elems a l h) a = l.
Proof.
  intros Ha. unfold read, set_elems. rewrite list_lookup_alter_eq.
  destruct (lookup_lt_is_Some_2 h a Ha) as [arr ->]. done.
Qed.

Lemma read_set_elems_ne (h : list Arr) a b l :
  a ≠ b → read (set_elems a l h) b = read h b.
Proof. intros Hne. unfold read, set_elems. by rewrite list_lookup_alter_ne. Qed.

Lemma lookup_set_elems_ne (h : list Arr) a b l :
  a ≠ b → set_elems a l h !! b = h !! b.
Proof. intros Hne. unfold set_elems. by rewrite list_lookup_alter_ne. Qed.

Lemma warned_set_elems (h : list Arr) a l :
  warned <$> set_elems a l h !! a = warned <$> h !! a.
Proof.
  unfold set_elems. rewrite list_lookup_alter_eq. by destruct (h !! a).
Qed.

(** Writing back what an array already holds changes nothing. *)
Lemma set_elems_same (h : list Arr) a : set_elems a (read h a) h = h.
Proof.
  unfold set_elems, read. apply list_eq. intros i.
  destruct (decide (a = i)) as [->|Hne].
  - rewrite list_lookup_alter_eq. by destruct (h !! i) as [[??]|].
  - by rewrite list_lookup_alter_ne.
Qed.

Lemma set_arrays_same w : set_arrays (arrays w) w = w.
Proof. by destruct w. Qed.

(** ** Splitting event names *)

Example split_by_dot : JsString.split "a.b.c" (Some ".") = ["a"; "b"; "c"].
Proof. reflexivity. Qed.

Example split_keeps_empty_segments :
  JsString.split "a..b." (Some ".") = ["a"; ""; "b"; ""].
Proof. reflexivity. Qed.

Example split_by_longer_separator :
  JsString.split "a::b" (Some "::") = ["a"; "b"].
Proof. reflexivity. Qed.

Example split_without_separator : JsString.split "a.b.c" None = ["a.b.c"].
Proof. reflexivity. Qed.

Lemma splitNamespaces_whole w s : splitNamespaces w (EvStr s) = [s].
Proof. reflexivity. Qed.

Lemma splitNamespaces_path w p : splitNamespaces w (EvPath p) = p.
Proof. reflexivity. Qed.

(** C1 (the code departs from it): [splitNamespaces] reads the property
    [delimiter], which is never defined, so the separator is undefined and
    every event name stays one segment: ["a.b.c"] gives the path
    [["a.b.c"]], before and after [setDelimiter], while splitting by the
    configured delimiter [delimiter_] would give [["a"; "b"; "c"]].
    A listener registered under the split path [["a"; "b"]] is therefore
    not found under the name ["a.b"]. *)
Theorem splitNamespaces_never_splits :
  (∀ w s, splitNamespaces w (EvStr s) = [s])
  ∧ splitNamespaces (world standard_console []) (EvStr "a.b.c") = ["a.b.c"]
  ∧ splitNamespaces_documented (world standard_console []) (EvStr "a.b.c")
    = ["a"; "b"; "c"]
  ∧ (world_of (setDelimiter ":" (world standard_console [])) ≫=
       λ w, Some (splitNamespaces w (EvStr "a:b"),
                  splitNamespaces_documented w (EvStr "a:b")))
    = Some (["a:b"], ["a"; "b"])
  ∧ (world_of (Run.on 2 (EvPath ["a"; "b"]) (VFn 0)
                 (world standard_console [UserFn []])) ≫=
       λ w, Some (scoped w (EvPath ["a"; "b"]), scoped w (EvStr "a.b")))
    = Some ([VFn 0], []).
Proof.
  split; [intros; apply splitNamespaces_whole|].
  repeat split; vm_compute; reflexivity.
Qed.

(** ** Return values *)

(** C9 (the code departs from it): [many] with an amount that is not
    positive returns [undefined], not the emitter, and registers nothing,
    so the call cannot be chained. *)
Theorem many_nonpositive_returns_undefined :
  ∀ fuel event listener w,
    Run.many fuel event 0 listener w = Ret VUndef w
    ∧ Run.many fuel event (-1) listener w = Ret VUndef w.
Proof. intros. split; reflexivity. Qed.

(** ** Removal *)

Lemma off_test_match w f x :
  is_function x = true → matches w f x → off_test w f x = Some true.
Proof.
  intros Hx [->|(g & -> & Ho)]; unfold off_test.
  - by rewrite bool_decide_eq_true_2.
  - case_bool_decide; [done|]. rewrite Ho. simpl.
    by rewrite bool_decide_eq_true_2.
Qed.

Lemma off_test_no_match w f x :
  is_function x = true → ¬ matches w f x → off_test w f x = Some false.
Proof.
  intros Hx Hno. destruct x as [| | | | |g|]; try discriminate Hx.
  unfold off_test. case_bool_decide as Heq.
  - exfalso. apply Hno. by left.
  - f_equal. apply andb_false_intro2. apply bool_decide_eq_false_2.
    intros Ho. apply Hno. right. eauto.
Qed.

Lemma off_scan_no_match w f l :
  Forall (λ y, is_function y = true ∧ ¬ matches w f y) l →
  off_scan w f l = Some l.
Proof.
  induction 1 as [|y l [Hy Hno] _ IH]; [done|]. simpl.
  by rewrite (off_test_no_match _ _ _ Hy Hno), IH.
Qed.

Lemma off_scan_first_match w f l1 x l2 :
  Forall (λ y, is_function y = true ∧ ¬ matches w f y) l1 →
  is_function x = true → matches w f x →
  off_scan w f (l1 ++ x :: l2) = Some (l1 ++ l2).
Proof.
  intros Hl1 Hx Hm. induction Hl1 as [|y l [Hy Hno] _ IH]; simpl.
  - by rewrite (off_test_match _ _ _ Hx Hm).
  - by rewrite (off_test_no_match _ _ _ Hy Hno), IH.
Qed.

(** Removing a function that no entry of the path matches changes
    nothing, whether or not the path has a list. *)
Lemma off_no_match w event f :
  Forall (λ y, is_function y = true ∧ ¬ matches w f y) (scoped w event) →
  off event (VFn f) w = Ret VEmitter w.
Proof.
  unfold scoped, off. destruct (listeners w event) as [a|]; [|done].
  intros Hall. rewrite (off_scan_no_match _ _ _ Hall).
  by rewrite set_elems_same, set_arrays_same.
Qed.

Lemma remove_first_absent f l : VFn f ∉ l → remove_first f l = l.
Proof.
  induction l as [|y l IH]; [done|]. intros Hnot. simpl.
  rewrite bool_decide_eq_false_2 by (intros ->; apply Hnot; left).
  rewrite IH; [done|]. intros Hin. apply Hnot. by right.
Qed.

Lemma offAny_absent w f :
  VFn f ∉ unscoped w → offAny (VFn f) w = Ret VEmitter w.
Proof.
  unfold unscoped, listenersAny, offAny.
  destruct (all_ (self w)) as [b|]; [|done]. intros Hnot.
  by rewrite remove_first_absent, set_elems_same, set_arrays_same.
Qed.

(** C7: [off(e, L)] removes from the list at the exact path the first
    entry that is [L] or whose [origin] is [L] and nothing else, also when
    later entries match as well; when no entry matches, the world is left
    as it was. A wrapper made by [many] is removed through the listener it
    wraps. *)
Theorem off_removes_first_match w event f a
  (Hlist : listeners w event = Some a)
  (Hfun : Forall (λ y, is_function y = true) (read (arrays w) a)) :
  (∀ l1 x l2,
     read (arrays w) a = l1 ++ x :: l2 →
     Forall (λ y, ¬ matches w f y) l1 → matches w f x →
     off event (VFn f) w
     = Ret VEmitter (set_arrays (set_elems a (l1 ++ l2) (arrays w)) w)
     ∧ read (set_elems a (l1 ++ l2) (arrays w)) a = l1 ++ l2
     ∧ ∀ b, b ≠ a →
            set_elems a (l1 ++ l2) (arrays w) !! b = arrays w !! b)
  ∧ (Forall (λ y, ¬ matches w f y) (read (arrays w) a) →
     off event (VFn f) w = Ret VEmitter w)
  ∧ (∀ g ev n, funs w !! g = Some (HandlerInternal ev n (VFn f)) →
     matches w f (VFn g)).
Proof.
  split; [|split].
  - intros l1 x l2 Hsplit Hl1 Hx.
    rewrite Hsplit in Hfun. apply Forall_app in Hfun as [Hf1 Hf2].
    apply Forall_cons in Hf2 as [Hfx _].
    assert (Hlt : a < length (arrays w)).
    { unfold read in Hsplit. destruct (arrays w !! a) eqn:Ha.
      - by apply lookup_lt_Some in Ha.
      - by destruct l1. }
    split; [|split].
    + unfold off. rewrite Hlist, Hsplit.
      rewrite (off_scan_first_match w f l1 x l2); [done| |done..].
      apply Forall_forall. intros y Hy. split.
      * by eapply (proj1 (Forall_forall _ _) Hf1).
      * by eapply (proj1 (Forall_forall _ _) Hl1).
    + by apply read_set_elems_eq.
    + intros b Hb. by apply lookup_set_elems_ne.
  - intros Hno. apply off_no_match. unfold scoped. rewrite Hlist.
    apply Forall_forall. intros y Hy. split.
    + by eapply (proj1 (Forall_forall _ _) Hfun).
    + by eapply (proj1 (Forall_forall _ _) Hno).
  - intros g ev n Hg. right. exists g. split; [done|].
    unfold origin. by rewrite Hg.
Qed.

(** ** Emission *)

Lemma emit_loop_end apply_fn n it i args listened w :
  walked_elems w it !! i = None →
  emit_loop apply_fn (S n) it i args listened w = Ret listened w.
Proof. intros Hend. simpl. by rewrite Hend. Qed.

(** With nothing registered for the event and no unscoped entries, [emit]
    applies nothing and returns [false]. *)
Lemma emit_nothing apply_fn (budget : nat) event args w :
  2 ≤ budget → scoped w event = [] → unscoped w = [] →
  emit apply_fn budget event args w = Ret false w.
Proof.
  intros Hb Hs Hu. unfold emit, scoped, unscoped, listenersAny in *.
  destruct budget as [|[|n]]; [lia..|].
  destruct (listeners w event) as [a|].
  - unfold concat_all, concat_operand. rewrite Hs.
    destruct (all_ (self w)) as [b|]; [by rewrite Hu|]. done.
  - destruct (all_ (self w)) as [b|]; [|done].
    simpl. by rewrite Hu.
Qed.

(** C6: [on], [off] and [offAny] given a listener that is not a function
    throw a TypeError and leave the whole world as it was (nothing stored,
    no [newListener] emitted), whatever is registered. With a function:
    [off] returns and changes nothing when no entry under the path of the
    event matches it (an event with no list included); [offAny] returns
    and changes nothing when the function is not in the unscoped list;
    and [emit] of an event, when neither its list nor the unscoped list
    has an entry, returns [false] and changes nothing. *)
Theorem invalid_listener_throws_and_misses_are_noops
  (fuel : nat) w event event0 v f args :
  (is_function v = false →
   Run.on fuel event v w = Raise (TypeError "Listener must be a function") w
   ∧ Run.addListener fuel event v w
     = Raise (TypeError "Listener must be a function") w
   ∧ off event v w = Raise (TypeError "Listener must be a function") w
   ∧ removeListener event v w
     = Raise (TypeError "Listener must be a function") w
   ∧ offAny v w = Raise (TypeError "Listener must be a function") w)
  ∧ (Forall (λ y, is_function y = true ∧ ¬ matches w f y) (scoped w event) →
     off event (VFn f) w = Ret VEmitter w
     ∧ removeListener event (VFn f) w = Ret VEmitter w)
  ∧ (VFn f ∉ unscoped w → offAny (VFn f) w = Ret VEmitter w)
  ∧ (2 ≤ fuel → scoped w event0 = [] → unscoped w = [] →
     Run.emit fuel event0 args w = Ret false w).
Proof.
  split; [|split; [|split]].
  - intros Hv. repeat split.
    + unfold Run.on, on, addListener. by rewrite Hv.
    + unfold Run.addListener, addListener. by rewrite Hv.
    + by destruct v.
    + by destruct v.
    + by destruct v.
  - intros Hmiss. split; by apply off_no_match.
  - apply offAny_absent.
  - intros Hfuel Hs Hu. by apply emit_nothing.
Qed.

(** ** Removing all listeners *)

(** C8 as stated fails: the empty string is an event name that [on] and
    [emit] accept, but [removeAllListeners("")] takes the branch for a
    missing argument and drops the list of ["x"] and the unscoped list. *)
Lemma removeAllListeners_empty_name_clears_all :
  ¬ resets_only_its_path
      (final (chain [onAny (VFn 0); Run.on 3 (EvStr "x") (VFn 1)]
                (world standard_console [UserFn []; UserFn []])))
      (EvStr "").
Proof.
  intros (w' & Hrun & _ & _ & Hany).
  simpl in Hrun. inversion Hrun; subst; clear Hrun.
  vm_compute in Hany. discriminate Hany.
Qed.

(** C8 (amended): with a non-empty event name (or an explicit path)
    [removeAllListeners] stores a new empty list at that exact path and
    leaves the list of every other path, every existing array and the
    unscoped list as they were; without an argument it clears the trie and
    drops the unscoped list, so that [listeners(x)] is absent for every
    [x] and [listenersAny()] is absent. *)
Theorem removeAllListeners_scope w event
  (Hname : truthy (event_value event) = true) :
  (∃ w', removeAllListeners (Some event) w = Ret VEmitter w'
         ∧ listeners w' event = Some (length (arrays w))
         ∧ scoped w' event = []
         ∧ (∀ q, splitNamespaces w q ≠ splitNamespaces w event →
                 listeners w' q = listeners w q)
         ∧ (∀ b arr, arrays w !! b = Some arr → arrays w' !! b = Some arr)
         ∧ listenersAny w' = listenersAny w)
  ∧ (∃ w', removeAllListeners None w = Ret VEmitter w'
           ∧ (∀ x, listeners w' x = None)
           ∧ listenersAny w' = None).
Proof.
  split.
  - unfold removeAllListeners. rewrite Hname. simpl.
    destruct (Trie.setKeyValue None (listenersTree_ (self w))
                (splitNamespaces w event) (length (arrays w))
                (arrays w ++ [mkArr [] false])) as [[tree v] h'] eqn:Hset.
    destruct (setKeyValue_spec _ _ _ _ _ _ _ _ Hset) as (Hst & Hget & Hother).
    assert (v = length (arrays w) ∧ h' = arrays w ++ [mkArr [] false])
      as [-> ->].
    { unfold Trie.store_at in Hst.
      destruct (Trie.getKeyValue _ _); by inversion Hst. }
    eexists. split; [reflexivity|].
    assert (Hl : listeners
                   (set_self (set_tree tree (self w))
                      (set_arrays (arrays w ++ [mkArr [] false]) w)) event
                 = Some (length (arrays w))).
    { unfold listeners. simpl. exact Hget. }
    split; [exact Hl|]. split; [|split; [|split]].
    + unfold scoped. rewrite Hl. simpl. apply read_new.
    + intros q Hq. unfold listeners. simpl. by apply Hother.
    + intros b arr Hb. simpl. by apply lookup_app_l_Some.
    + done.
  - eexists. split; [reflexivity|]. split; [|done].
    intros x. unfold listeners. simpl. apply getKeyValue_empty.
Qed.

(** ** Emission to passive listeners *)

Lemma apply_passive k f args w :
  funs w !! f = Some (UserFn []) →
  apply_function (S k) (VFn f) args w
  = Ret VUndef (set_calls (calls w ++ [mkCall f VEmitter args]) w).
Proof. intros Hf. simpl. by rewrite Hf. Qed.

Lemma set_calls_same w : set_calls (calls w ++ []) w = w.
Proof. rewrite app_nil_r. by destruct w. Qed.

Lemma applications_app args l1 l2 :
  applications args (l1 ++ l2) = applications args l1 ++ applications args l2.
Proof. unfold applications. by rewrite omap_app, fmap_app. Qed.

Lemma fn_indices_passive w l :
  Forall (passive w) l → omap fn_index l = [] → l = [].
Proof.
  destruct 1 as [|v l (f & -> & _) _]; [done|]. simpl. discriminate.
Qed.

(** The loop over entries that are falsy or passive applies the
    functions among them in order and touches nothing but the call
    record. *)
Lemma emit_loop_passive k args it rest :
  ∀ pre (n : nat) listened w,
    walked_elems w it = pre ++ rest →
    Forall (λ v, truthy v = false ∨ passive w v) rest →
    length rest < n →
    emit_loop (apply_function (S k)) n it (length pre) args listened w
    = Ret (listened || bool_decide (omap fn_index rest ≠ []))
        (set_calls (calls w ++ applications args rest) w).
Proof.
  induction rest as [|v rest IH]; intros pre n listened w Hw Hall Hn.
  - destruct n as [|n]; [simpl in Hn; lia|].
    rewrite emit_loop_end.
    + rewrite orb_false_r. unfold applications. simpl.
      by rewrite set_calls_same.
    + rewrite Hw, app_nil_r. by apply lookup_ge_None_2.
  - destruct n as [|n]; [simpl in Hn; lia|]. simpl in Hn.
    apply Forall_cons in Hall as [Hv Hall].
    cbn [emit_loop]. rewrite Hw, list_lookup_middle by done.
    assert (Hnext : ∀ w', walked_elems w' it = walked_elems w it →
              walked_elems w' it = (pre ++ [v]) ++ rest).
    { intros w' ->. by rewrite Hw, <- app_assoc. }
    replace (S (length pre)) with (length (pre ++ [v]))
      by (rewrite length_app; simpl; lia).
    destruct Hv as [Hfalsy|(f & -> & Hf)].
    + rewrite Hfalsy. rewrite (IH (pre ++ [v])); [|by apply Hnext|done|lia].
      assert (fn_index v = None) as Hnone by (by destruct v).
      unfold applications. simpl. by rewrite Hnone.
    + cbn [truthy]. rewrite (apply_passive _ _ _ _ Hf). cbn [bind].
      rewrite (IH (pre ++ [VFn f])); [|apply Hnext; by destruct it|done|lia].
      f_equal.
      * rewrite orb_true_l. symmetry. apply orb_true_intro. right.
        by apply bool_decide_eq_true_2.
      * unfold applications. simpl. by rewrite <- app_assoc.
Qed.

Lemma emit_passive k (n : nat) event args w :
  Forall (passive w) (scoped w event) →
  Forall (passive w) (unscoped w) →
  length (scoped w event) + length (unscoped w) + 1 < n →
  emit (apply_function (S k)) n event args w
  = Ret (bool_decide (scoped w event ++ unscoped w ≠ []))
      (set_calls
         (calls w ++ applications args (scoped w event ++ unscoped w)) w).
Proof.
  intros Hs Hu Hn. unfold emit, scoped, unscoped, listenersAny in *.
  destruct (listeners w event) as [a|].
  - rewrite (emit_loop_passive k args _ (concat_all w a) [] n false w).
    + unfold concat_all, concat_operand. f_equal.
      * destruct (all_ (self w)) as [b|]; [|rewrite app_nil_r].
        -- apply bool_decide_ext. split; intros Hne Heq; apply Hne.
           ++ by rewrite Heq.
           ++ eapply fn_indices_passive; [|done]. by apply Forall_app.
        -- rewrite omap_app. simpl. rewrite app_nil_r.
           apply bool_decide_ext. split; intros Hne Heq; apply Hne.
           ++ by rewrite Heq.
           ++ by eapply fn_indices_passive.
      * destruct (all_ (self w)) as [b|]; [done|].
        rewrite !applications_app. unfold applications at 2. simpl.
        by rewrite !app_nil_r.
    + done.
    + unfold concat_all, concat_operand. apply Forall_app. split.
      * eapply Forall_impl; [exact Hs|]. by right.
      * destruct (all_ (self w)) as [b|].
        -- eapply Forall_impl; [exact Hu|]. by right.
        -- repeat constructor.
    + unfold concat_all, concat_operand. rewrite length_app.
      destruct (all_ (self w)); simpl in *; lia.
  - destruct (all_ (self w)) as [b|].
    + rewrite (emit_loop_passive k args _ (read (arrays w) b) [] n false w).
      * simpl. f_equal. apply bool_decide_ext.
        split; intros Hne Heq; apply Hne.
        -- by rewrite Heq.
        -- by eapply fn_indices_passive.
      * done.
      * eapply Forall_impl; [exact Hu|]. by right.
      * simpl in Hn. lia.
    + simpl. unfold applications. simpl. by rewrite set_calls_same.
Qed.

(** ** Emission walks a copy *)

Lemma emit_loop_fresh apply_fn args rest :
  ∀ pre (n : nat) listened w,
    length rest < n →
    emit_loop apply_fn n (Fresh (pre ++ rest)) (length pre) args listened w
    = visit_each apply_fn args rest listened w.
Proof.
  induction rest as [|v rest IH]; intros pre n listened w Hn.
  - destruct n as [|n]; [simpl in Hn; lia|].
    apply emit_loop_end. simpl. rewrite app_nil_r.
    by apply lookup_ge_None_2.
  - destruct n as [|n]; [simpl in Hn; lia|]. simpl in Hn.
    cbn [emit_loop walked_elems visit_each].
    rewrite list_lookup_middle by done.
    replace (S (length pre)) with (length (pre ++ [v]))
      by (rewrite length_app; simpl; lia).
    replace (pre ++ v :: rest) with ((pre ++ [v]) ++ rest)
      by (by rewrite <- app_assoc).
    destruct (truthy v).
    + destruct (apply_fn v args w) as [r w'| |]; simpl; [|done..].
      apply IH. lia.
    + apply IH. lia.
Qed.

(** C10: when the path of the event has a list, [emit] applies exactly
    the truthy entries of the concatenated copy taken at the start, each
    once and in order, whatever the listeners do to the registry
    meanwhile: a [once] wrapper that removes itself does not make the
    next listener be skipped, and a listener that calls [off] for itself
    and for the next one does not stop the next one in this emission.
    When the path has no list the loop walks the live unscoped array: a
    listener that removes itself from it with [offAny] makes the entry
    after it be skipped, which does not happen when a path list exists. *)
Theorem emit_walks_copy_or_live_list (fuel : nat) w event args a
  (Hlist : listeners w event = Some a)
  (Hfuel : length (concat_all w a) < fuel) :
  Run.emit fuel event args w
  = visit_each (apply_function fuel) args (concat_all w a) false w
  ∧ observe (EvStr "x")
      (run _, w1 :=
         chain [Run.once 4 (EvStr "x") (VFn 0); Run.on 4 (EvStr "x") (VFn 1)]
           (world standard_console [UserFn []; UserFn []]) in
       Run.emit 4 (EvStr "x") [] w1)
    = Some (Some true, [2; 0; 1], [VFn 1], [])
  ∧ observe (EvStr "x")
      (run _, w1 :=
         chain [Run.on 4 (EvStr "x") (VFn 0); Run.on 4 (EvStr "x") (VFn 1)]
           (world standard_console
              [UserFn [COff (EvStr "x") (VFn 0); COff (EvStr "x") (VFn 1)];
               UserFn []]) in
       Run.emit 4 (EvStr "x") [] w1)
    = Some (Some true, [0; 1], [], [])
  ∧ observe (EvStr "y")
      (run _, w1 :=
         chain [onAny (VFn 0); onAny (VFn 1)]
           (world standard_console [UserFn [COffAny (VFn 0)]; UserFn []]) in
       Run.emit 4 (EvStr "y") [] w1)
    = Some (Some true, [0], [], [VFn 1])
  ∧ observe (EvStr "y")
      (run _, w1 :=
         chain [Run.on 4 (EvStr "y") (VFn 2); onAny (VFn 0); onAny (VFn 1)]
           (world standard_console
              [UserFn [COffAny (VFn 0)]; UserFn []; UserFn []]) in
       Run.emit 4 (EvStr "y") [] w1)
    = Some (Some true, [2; 0; 1], [VFn 2], [VFn 1]).
Proof.
  split; [|repeat split; vm_compute; reflexivity].
  unfold Run.emit, emit. rewrite Hlist.
  by apply (emit_loop_fresh _ _ _ []).
Qed.

(** ** Counting wrappers *)

Lemma emit_loop_apply apply_fn (n : nat) it i args listened w v :
  walked_elems w it !! i = Some v → truthy v = true →
  emit_loop apply_fn (S n) it i args listened w
  = run _, w' := apply_fn v args w in
    emit_loop apply_fn n it (S i) args true w'.
Proof. intros Hv Ht. simpl. by rewrite Hv, Ht. Qed.

Lemma apply_wrapper k h event amount listener args w :
  funs w !! h = Some (HandlerInternal event amount listener) →
  apply_function (S k) (VFn h) args w
  = handlerInternal_body (apply_function k) h event amount listener args
      (set_calls (calls w ++ [mkCall h VEmitter args]) w).
Proof. intros Hh. simpl. by rewrite Hh. Qed.

Lemma invocations_app f cs1 cs2 :
  invocations f (cs1 ++ cs2) = invocations f cs1 + invocations f cs2.
Proof. unfold invocations. by rewrite filter_app, length_app. Qed.

Lemma invocations_absent f args l :
  VFn f ∉ l → invocations f (applications args l) = 0.
Proof.
  induction l as [|v l IH]; [done|]. intros Hnot.
  assert (VFn f ∉ l) as Hl by (intros Hin; apply Hnot; by right).
  destruct v as [| | | | |g|]; try (by apply IH).
  unfold applications. simpl. unfold invocations. rewrite filter_cons.
  simpl. destruct (decide (g = f)) as [->|Hne].
  - exfalso. apply Hnot. by left.
  - by apply IH.
Qed.

(** ** The leak warning *)

(** C2 (the code departs from it): the warning is printed with
    [console.warning], a method the standard console does not have (its
    method is [warn]). With the default limit of 10 the eleventh
    registration on one path therefore throws a TypeError after the
    listener was stored and before [warned] is set, prints nothing, and
    the twelfth registration throws again. On a host whose console does
    have [warning], the eleventh registration prints one line and
    returns, and the twelfth prints nothing more, the flag being kept on
    the list that the merge returns. *)
Theorem eleventh_listener_warning_call_throws :
  report (EvStr "x") (Ret VEmitter (ten_listeners standard_console))
  = Some (None, 10, false, [])
  ∧ report (EvStr "x")
      (Run.on 2 (EvStr "x") (VFn 0) (ten_listeners standard_console))
    = Some (Some (TypeError "console.warning is not a function"),
            11, false, [])
  ∧ report (EvStr "x")
      (Run.on 2 (EvStr "x") (VFn 0)
         (final (Run.on 2 (EvStr "x") (VFn 0)
                   (ten_listeners standard_console))))
    = Some (Some (TypeError "console.warning is not a function"),
            12, false, [])
  ∧ report (EvStr "x")
      (Run.on 2 (EvStr "x") (VFn 0) (ten_listeners console_with_warning))
    = Some (None, 11, true, [mkDiag "warning" 11 (EvStr "x")])
  ∧ report (EvStr "x")
      (Run.on 2 (EvStr "x") (VFn 0)
         (final (Run.on 2 (EvStr "x") (VFn 0)
                   (ten_listeners console_with_warning))))
    = Some (None, 12, true, [mkDiag "warning" 11 (EvStr "x")]).
Proof. repeat split; vm_compute; reflexivity. Qed.

(** C3 (the code departs from it): the test is
    [length > maxListeners_] with no case for zero, so after
    [setMaxListeners(0)] the first registration already takes the warning
    branch: on the standard console the call throws, on a console with
    [warning] a leak line is printed for one listener. *)
Theorem zero_max_listeners_still_warns :
  report (EvStr "x")
    (chain [setMaxListeners 0; Run.on 2 (EvStr "x") (VFn 0)]
       (world standard_console [UserFn []]))
  = Some (Some (TypeError "console.warning is not a function"),
          1, false, [])
  ∧ report (EvStr "x")
      (chain [setMaxListeners 0; Run.on 2 (EvStr "x") (VFn 0)]
         (world console_with_warning [UserFn []]))
    = Some (None, 1, true, [mkDiag "warning" 1 (EvStr "x")]).
Proof. split; vm_compute; reflexivity. Qed.

(** ** Registration keeps the lists apart and in order *)

Lemma read_set_warned (h : list Arr) a x : read (set_warned a h) x = read h x.
Proof.
  unfold read, set_warned. destruct (decide (a = x)) as [->|Hne].
  - rewrite list_lookup_alter_eq. by destruct (h !! x).
  - by rewrite list_lookup_alter_ne.
Qed.

Lemma same_entries_tidy w' w : same_entries w' w → tidy w → tidy w'.
Proof.
  intros (Hs & _ & Hlen & _) (H1 & H2 & H3). unfold tidy.
  rewrite Hs, Hlen. done.
Qed.

Lemma same_entries_scoped_at w' w p :
  same_entries w' w → scoped_at w' p = scoped_at w p.
Proof.
  intros (Hs & _ & _ & Hr). unfold scoped_at. rewrite Hs.
  by destruct (Trie.getKeyValue _ _).
Qed.

Lemma same_entries_unscoped w' w :
  same_entries w' w → unscoped w' = unscoped w.
Proof.
  intros (Hs & _ & _ & Hr). unfold unscoped, listenersAny. rewrite Hs.
  by destruct (all_ _).
Qed.

(** The end of [addListener]: whether the warning is skipped, printed or
    its call throws, the lists are those of the world it started in. *)
Lemma warning_keeps_entries (cond : bool) a len event w2 :
  ∃ w', world_of
          (if cond then
             run _, w3 := console_call "warning" len event w2 in
             Ret VEmitter (set_arrays (set_warned a (arrays w3)) w3)
           else Ret VEmitter w2) = Some w'
        ∧ same_entries w' w2
        ∧ (cond = false →
           (if cond then
              run _, w3 := console_call "warning" len event w2 in
              Ret VEmitter (set_arrays (set_warned a (arrays w3)) w3)
            else Ret VEmitter w2) = Ret VEmitter w').
Proof.
  destruct cond.
  - unfold console_call. case_bool_decide; simpl.
    + eexists. split; [reflexivity|]. split; [|done]. repeat split; simpl.
      * apply length_alter.
      * intros x. apply read_set_warned.
    + by eexists.
  - by eexists.
Qed.

Lemma scoped_is_scoped_at w event :
  scoped w event = scoped_at w (splitNamespaces w event).
Proof. reflexivity. Qed.

(** [on] with a function appends it to the list of the path of the
    event and to no other list; it returns normally when the list stays
    within [maxListeners_]. *)
Lemma on_registers (fuel : nat) w event f :
  tidy w →
  Forall (passive w) (scoped w (EvStr "newListener")) →
  Forall (passive w) (unscoped w) →
  length (scoped w (EvStr "newListener")) + length (unscoped w) + 1 < fuel →
  ∃ w', world_of (Run.on fuel event (VFn f) w) = Some w'
        ∧ tidy w' ∧ funs w' = funs w
        ∧ (∀ p, scoped_at w' p
                = scoped_at w p
                  ++ if decide (splitNamespaces w event = p) then [VFn f]
                     else [])
        ∧ unscoped w' = unscoped w
        ∧ all_ (self w') = all_ (self w)
        ∧ ((Z.of_nat (length (scoped w event)) + 1
            ≤ maxListeners_ (self w))%Z →
           Run.on fuel event (VFn f) w = Ret VEmitter w').
Proof.
  intros (T1 & T2 & T3) Hnew Hu Hfuel.
  unfold Run.on, on, addListener. cbn [is_function negb].
  destruct fuel as [|k]; [lia|].
  rewrite emit_passive by done. cbn [bind].
  set (w1 := set_calls _ w). cbn [new_array].
  destruct (Trie.setKeyValue (Some mergeListenerArrays_)
              (listenersTree_ (self w1)) (splitNamespaces w1 event)
              (length (arrays w1)) (arrays w1 ++ [mkArr [VFn f] false]))
    as [[tree a] h'] eqn:Hset.
  destruct (setKeyValue_spec _ _ _ _ _ _ _ _ Hset) as (Hst & Hget & Hother).
  change (listenersTree_ (self w1)) with (listenersTree_ (self w)) in *.
  change (splitNamespaces w1 event) with (splitNamespaces w event) in *.
  change (arrays w1) with (arrays w) in *.
  set (p0 := splitNamespaces w event) in *.
  set (w2 := set_self _ _).
  destruct (warning_keeps_entries
              ((maxListeners_ (self w2)
                <? Z.of_nat (length (read (arrays w2) a)))%Z
               && negb match arrays w2 !! a with
                       | Some arr => warned arr
                       | None => false
                       end)
              a (length (read (arrays w2) a)) event w2)
    as (w' & Hw' & Hsame & Hret).
  exists w'. split; [exact Hw'|].
  assert (Hfacts :
    tidy w2 ∧ (∀ p, scoped_at w2 p
                    = scoped_at w p ++ if decide (p0 = p) then [VFn f] else [])
    ∧ unscoped w2 = unscoped w).
  { unfold Trie.store_at in Hst.
    destruct (Trie.getKeyValue (listenersTree_ (self w)) p0) as [a0|] eqn:Hp0.
    - (* the path has a list: the entry is pushed onto it *)
      unfold mergeListenerArrays_ in Hst. rewrite read_new in Hst.
      simpl in Hst. inversion Hst; subst a h'; clear Hst.
      pose proof (T1 _ _ Hp0) as Ha0.
      assert (Hlook : ∀ q, Trie.getKeyValue tree q
                           = Trie.getKeyValue (listenersTree_ (self w)) q).
      { intros q. destruct (decide (q = p0)) as [->|Hq]; [by rewrite Hp0|].
        by apply Hother. }
      split; [|split].
      + split; [|split]; simpl.
        * intros p a Hp. rewrite Hlook in Hp. apply T1 in Hp.
          rewrite length_push, length_app. simpl. lia.
        * intros p q a Hp Hq. rewrite Hlook in Hp, Hq. by eapply T2.
        * intros b Hb. destruct (T3 b Hb) as [Hlt Hno]. split.
          -- rewrite length_push, length_app. simpl. lia.
          -- intros p. rewrite Hlook. apply Hno.
      + intros p. unfold scoped_at. simpl. rewrite Hlook.
        destruct (decide (p0 = p)) as [<-|Hne].
        * rewrite Hp0. rewrite read_push_eq by (rewrite length_app; lia).
          by rewrite read_app_old.
        * rewrite app_nil_r.
          destruct (Trie.getKeyValue _ p) as [a|] eqn:Hp; [|done].
          rewrite read_push_ne.
          -- apply read_app_old. by eapply T1.
          -- intros <-. apply Hne. by eapply T2.
      + unfold unscoped, listenersAny. simpl.
        destruct (all_ (self w)) as [b|] eqn:Hb; [|done].
        destruct (T3 b eq_refl) as [Hlt Hno].
        rewrite read_push_ne by (intros <-; by apply (Hno p0)).
        by apply read_app_old.
    - (* the path is new: the literal becomes its list *)
      inversion Hst; subst a h'; clear Hst.
      assert (Hlook : ∀ q, q ≠ p0 →
                Trie.getKeyValue tree q
                = Trie.getKeyValue (listenersTree_ (self w)) q)
        by (intros q Hq; by apply Hother).
      split; [|split].
      + split; [|split]; simpl.
        * intros p a Hp. rewrite length_app. simpl.
          destruct (decide (p = p0)) as [->|Hne].
          -- rewrite Hget in Hp. inversion Hp. lia.
          -- rewrite Hlook in Hp by done. apply T1 in Hp. lia.
        * intros p q a Hp Hq.
          destruct (decide (p = p0)) as [->|Hp']; 
            destruct (decide (q = p0)) as [->|Hq']; [done|..].
          -- rewrite Hget in Hp. inversion Hp; subst a.
             rewrite Hlook in Hq by done. apply T1 in Hq. lia.
          -- rewrite Hget in Hq. inversion Hq; subst a.
             rewrite Hlook in Hp by done. apply T1 in Hp. lia.
          -- rewrite Hlook in Hp, Hq by done. by eapply T2.
        * intros b Hb. destruct (T3 b Hb) as [Hlt Hno]. split.
          -- rewrite length_app. simpl. lia.
          -- intros p. destruct (decide (p = p0)) as [->|Hne].
             ++ rewrite Hget. intros Heq. inversion Heq. lia.
             ++ rewrite Hlook by done. apply Hno.
      + intros p. unfold scoped_at. simpl.
        destruct (decide (p0 = p)) as [<-|Hne].
        * rewrite Hget, Hp0. simpl. apply read_new.
        * rewrite app_nil_r, Hlook by done.
          destruct (Trie.getKeyValue _ p) as [a|] eqn:Hp; [|done].
          apply read_app_old. by eapply T1.
      + unfold unscoped, listenersAny. simpl.
        destruct (all_ (self w)) as [b|] eqn:Hb; [|done].
        apply read_app_old. by apply (T3 b eq_refl). }
  destruct Hfacts as (Htidy & Hsc & Hun).
  split; [by eapply same_entries_tidy|].
  split; [by destruct Hsame as (_ & -> & _)|].
  split; [|split; [|split]].
  - intros p. by rewrite (same_entries_scoped_at _ _ _ Hsame).
  - by rewrite (same_entries_unscoped _ _ Hsame).
  - by destruct Hsame as (-> & _).
  - intros Hmax. apply Hret. apply andb_false_intro1. apply Z.ltb_ge.
    assert (Hlen : read (arrays w2) a = scoped_at w2 p0).
    { unfold scoped_at. simpl. by rewrite Hget. }
    rewrite Hlen, Hsc, decide_True, length_app by done.
    change (maxListeners_ (self w2)) with (maxListeners_ (self w)).
    unfold scoped in Hmax. fold p0 in Hmax. unfold scoped_at.
    unfold listeners in Hmax. fold p0 in Hmax. simpl. lia.
Qed.

Lemma onAny_registers w f :
  tidy w →
  ∃ w', onAny (VFn f) w = Ret VEmitter w'
        ∧ tidy w' ∧ funs w' = funs w
        ∧ (∀ p, scoped_at w' p = scoped_at w p)
        ∧ unscoped w' = unscoped w ++ [VFn f].
Proof.
  intros (T1 & T2 & T3). unfold onAny.
  destruct (all_ (self w)) as [b|] eqn:Hb.
  - destruct (T3 b eq_refl) as [Hlt Hno].
    eexists. split; [reflexivity|]. split; [|split; [done|split]].
    + split; [|split]; simpl.
      * intros p a Hp. rewrite length_push. by eapply T1.
      * exact T2.
      * rewrite Hb. intros b' Hb'. inversion Hb'; subst b'.
        rewrite length_push. done.
    + intros p. unfold scoped_at. simpl.
      destruct (Trie.getKeyValue _ p) as [a|] eqn:Hp; [|done].
      apply read_push_ne. intros <-. by apply (Hno p).
    + unfold unscoped, listenersAny. simpl. rewrite Hb.
      by apply read_push_eq.
  - cbn [new_array]. eexists. split; [reflexivity|].
    split; [|split; [done|split]].
    + split; [|split]; simpl.
      * intros p a Hp. rewrite length_push, length_app. simpl.
        apply T1 in Hp. lia.
      * exact T2.
      * intros b' Hb'. inversion Hb'; subst b'. split.
        -- rewrite length_push, length_app. simpl. lia.
        -- intros p Hp. apply T1 in Hp. lia.
    + intros p. unfold scoped_at. simpl.
      destruct (Trie.getKeyValue _ p) as [a|] eqn:Hp; [|done].
      apply T1 in Hp. rewrite read_push_ne by lia. by apply read_app_old.
    + unfold unscoped, listenersAny. simpl. rewrite Hb. simpl.
      rewrite read_push_eq by (rewrite length_app; simpl; lia).
      by rewrite read_new.
Qed.

Lemma passive_same_funs w' w v :
  funs w' = funs w → passive w v → passive w' v.
Proof. intros Hf (f & -> & Hv). exists f. by rewrite Hf. Qed.

(** A script of registrations of passive functions appends them, in the
    order of the script, to the list of each path and to the unscoped
    list. [watched] holds the paths whose listeners get applied. *)
Lemma register_all_appends (fuel : nat) (watched : list string → Prop) rs :
  ∀ w,
    tidy w →
    Forall (λ r, funs w !! reg_fn r = Some (UserFn [])) rs →
    watched (splitNamespaces w (EvStr "newListener")) →
    (∀ p, watched p →
          Forall (passive w) (scoped_at w p)
          ∧ length (scoped_at w p) + length (unscoped w) + length rs + 1
            < fuel) →
    Forall (passive w) (unscoped w) →
    tidy (register_all fuel rs w)
    ∧ funs (register_all fuel rs w) = funs w
    ∧ (∀ p, scoped_at (register_all fuel rs w) p
            = scoped_at w p ++ registered_on w p rs)
    ∧ unscoped (register_all fuel rs w) = unscoped w ++ registered_any rs.
Proof.
  induction rs as [|r rs IH]; intros w Htidy Hrs Hnl Hw Hu.
  - simpl. split; [done|]. split; [done|]. split.
    + intros p. by rewrite app_nil_r.
    + by rewrite app_nil_r.
  - apply Forall_cons in Hrs as [Hr Hrs].
    assert (∃ w1, register fuel r w = w1 ∧ tidy w1 ∧ funs w1 = funs w
                  ∧ (∀ p, scoped_at w1 p
                          = scoped_at w p ++ registered_on w p [r])
                  ∧ unscoped w1 = unscoped w ++ registered_any [r])
      as (w1 & Hreg & Htidy1 & Hf1 & Hs1 & Hu1).
    { destruct r as [e f|f]; simpl in Hr.
      - destruct (Hw _ Hnl) as [Hpass Hlen]. simpl in Hlen.
        destruct (on_registers fuel w e f Htidy Hpass Hu)
          as (w1 & Hw1 & Ht1 & Hfu1 & Hsc1 & Hun1 & _).
        { rewrite scoped_is_scoped_at. simpl. lia. }
        exists w1. split; [by (simpl; rewrite Hw1)|].
        split; [done|]. split; [done|]. split.
        + intros p. rewrite Hsc1. simpl. by destruct (decide _).
        + simpl. by rewrite app_nil_r.
      - destruct (onAny_registers w f Htidy)
          as (w1 & Hw1 & Ht1 & Hfu1 & Hsc1 & Hun1).
        exists w1. split; [by (simpl; rewrite Hw1)|].
        split; [done|]. split; [done|]. split.
        + intros p. rewrite Hsc1. simpl. by rewrite app_nil_r.
        + done. }
    assert (Hr' : passive w1 (VFn (reg_fn r))).
    { exists (reg_fn r). by rewrite Hf1. }
    destruct (IH w1) as (Ht & Hf & Hs & Hun).
    + done.
    + eapply Forall_impl; [exact Hrs|]. intros r0 Hr0. by rewrite Hf1.
    + exact Hnl.
    + intros p Hp. destruct (Hw p Hp) as [Hpass Hlen]. rewrite Hs1, Hu1.
      split.
      * apply Forall_app. split.
        -- eapply Forall_impl; [exact Hpass|].
           intros v. by apply passive_same_funs.
        -- destruct r as [e f|f]; simpl; [|done].
           destruct (decide _); [|done]. by repeat constructor.
      * rewrite !length_app. simpl in Hlen.
        destruct r as [e f|f]; simpl; [destruct (decide _); simpl; lia|lia].
    + rewrite Hu1. apply Forall_app. split.
      * eapply Forall_impl; [exact Hu|]. intros v. by apply passive_same_funs.
      * destruct r as [e f|f]; simpl; [done|]. by repeat constructor.
    + change (register_all fuel (r :: rs) w)
        with (register_all fuel rs (register fuel r w)).
      rewrite Hreg. split; [done|]. split; [by rewrite Hf|]. split.
      * intros p. rewrite Hs, Hs1, <- app_assoc. f_equal.
        destruct r as [e f|f]; simpl; [|done]. by destruct (decide _).
      * rewrite Hun, Hu1, <- app_assoc. f_equal.
        by destruct r as [e f|f].
Qed.

Lemma registered_length w p rs :
  length (registered_on w p rs) + length (registered_any rs) ≤ length rs.
Proof.
  induction rs as [|[e f|f] rs IH]; simpl; [lia| |lia].
  destruct (decide _); simpl; lia.
Qed.

Lemma registered_on_passive w w' p rs :
  funs w' = funs w →
  Forall (λ r, funs w !! reg_fn r = Some (UserFn [])) rs →
  Forall (passive w') (registered_on w p rs)
  ∧ Forall (passive w') (registered_any rs).
Proof.
  intros Hf. induction 1 as [|[e f|f] rs Hr _ [IH1 IH2]]; simpl.
  - done.
  - split; [|done]. destruct (decide _); [|done].
    constructor; [|done]. exists f. by rewrite Hf.
  - split; [done|]. constructor; [|done]. exists f. by rewrite Hf.
Qed.

(** C4: after any script of registrations of passive listeners, made
    in a well-formed world whose listeners are passive, the list of an
    event holds what it held followed by the functions registered for its
    path in the order of the script, and likewise the unscoped list; and
    [emit] applies the entries of the event's list in that order, then the
    unscoped entries in that order, each with the arguments given and the
    emitter as [this], changes nothing else, and returns [true] exactly
    when some entry was applied. With [onAny(L3)] and [on("x", L4)],
    [emit("x")] applies [L4] then [L3], and [emit("y")] applies [L3] alone
    and returns [true]. *)
Theorem emit_applies_scoped_then_unscoped (fuel : nat) w rs event args
  (Htidy : tidy w)
  (Hrs : Forall (λ r, funs w !! reg_fn r = Some (UserFn [])) rs)
  (Hnew : Forall (passive w) (scoped w (EvStr "newListener")))
  (Hs : Forall (passive w) (scoped w event))
  (Hu : Forall (passive w) (unscoped w))
  (Hfuel : length (scoped w (EvStr "newListener")) + length (scoped w event)
           + length (unscoped w) + length rs + 1 < fuel) :
  scoped (register_all fuel rs w) event
  = scoped w event ++ registered_on w (splitNamespaces w event) rs
  ∧ unscoped (register_all fuel rs w) = unscoped w ++ registered_any rs
  ∧ Run.emit fuel event args (register_all fuel rs w)
    = Ret (bool_decide (scoped (register_all fuel rs w) event
                        ++ unscoped (register_all fuel rs w) ≠ []))
        (set_calls
           (calls (register_all fuel rs w)
            ++ applications args
                 (scoped (register_all fuel rs w) event
                  ++ unscoped (register_all fuel rs w)))
           (register_all fuel rs w))
  ∧ outcome
      (Run.emit 3 (EvStr "x") [VNum 7]
         (register_all 3 [RegAny 3; RegOn (EvStr "x") 4]
            (world standard_console (replicate 5 (UserFn [])))))
    = Some (true, [mkCall 3 VEmitter [VStr "x"; VFn 4];
                   mkCall 4 VEmitter [VNum 7];
                   mkCall 3 VEmitter [VNum 7]])
  ∧ outcome
      (Run.emit 3 (EvStr "y") [VNum 7]
         (register_all 3 [RegAny 3; RegOn (EvStr "x") 4]
            (world standard_console (replicate 5 (UserFn [])))))
    = Some (true, [mkCall 3 VEmitter [VStr "x"; VFn 4];
                   mkCall 3 VEmitter [VNum 7]]).
Proof.
  destruct (register_all_appends fuel
              (λ p, p = splitNamespaces w (EvStr "newListener")
                    ∨ p = splitNamespaces w event) rs w)
    as (Ht & Hf & Hsc & Hun); [done|done|by left| |done|].
  { intros p [->| ->]; (split; [done|]);
      rewrite <- ?scoped_is_scoped_at; lia. }
  set (w' := register_all fuel rs w) in *.
  assert (Hsc' : scoped w' event
                 = scoped w event
                   ++ registered_on w (splitNamespaces w event) rs)
    by apply Hsc.
  split; [exact Hsc'|]. split; [exact Hun|].
  split; [|split; vm_compute; reflexivity].
  destruct (registered_on_passive w w' (splitNamespaces w event) rs Hf Hrs)
    as [Hp1 Hp2].
  pose proof (registered_length w (splitNamespaces w event) rs) as Hlen.
  unfold Run.emit. destruct fuel as [|k]; [lia|].
  apply emit_passive.
  - rewrite Hsc'. apply Forall_app. split; [|done].
    eapply Forall_impl; [exact Hs|]. intros v. by apply passive_same_funs.
  - rewrite Hun. apply Forall_app. split; [|done].
    eapply Forall_impl; [exact Hu|]. intros v. by apply passive_same_funs.
  - rewrite Hsc', Hun, !length_app. lia.
Qed.


(** ** Counting down *)

#[local] Arguments Nat.min : simpl never.

Lemma insert_last {A} (l : list A) x y :
  <[length l := y]> (l ++ [x]) = l ++ [y].
Proof. rewrite insert_app_r_alt by lia. by rewrite Nat.sub_diag. Qed.

Lemma listeners_same_self w1 w2 event :
  self w1 = self w2 → listeners w1 event = listeners w2 event.
Proof. intros Hs. unfold listeners, splitNamespaces. by rewrite Hs. Qed.

Section Many.
Variables (event : Event) (n L : nat) (fs : list FnObj).
Variables (tail : list Value) (args : list Value) (fuel : nat).
Hypothesis Hn : 1 ≤ n.
Hypothesis HL : fs !! L = Some (UserFn []).
Hypothesis Htail :
  Forall (λ v, truthy v = false
               ∨ ∃ f, v = VFn f ∧ fs !! f = Some (UserFn [])) tail.
Hypothesis HLtail : invocations L (applications args tail) = 0.
Hypothesis Hfuel : length tail + 2 < fuel.

Lemma tail_quiet w' x :
  funs w' = fs ++ [x] →
  Forall (λ v, truthy v = false ∨ passive w' v) tail.
Proof.
  intros Hf. eapply Forall_impl; [exact Htail|].
  intros v [Hv|(f & -> & Hv)]; [by left|right].
  exists f. split; [done|]. rewrite Hf. by apply lookup_app_l_Some.
Qed.

Lemma countdown_copy c a k w' :
  counting_down event n L fs tail c a k w' →
  concat_all w' a
  = (if decide (k < n) then [VFn (length fs)] else []) ++ tail.
Proof.
  intros (_ & _ & _ & _ & Hr & Ht & _). unfold concat_all.
  by rewrite Hr, Ht.
Qed.

(** Applying the wrapper while its counter is positive: the counter goes
    down by one, the wrapper leaves the list when it reaches zero, and
    [L] is applied. *)
Lemma wrapper_fires c a k k2 w' :
  counting_down event n L fs tail c a k w' → k < n →
  ∃ w'', apply_function (S (S k2)) (VFn (length fs)) args w'
         = Ret VUndef w''
         ∧ self w'' = self w'
         ∧ length (arrays w'') = length (arrays w')
         ∧ funs w''
           = fs ++ [HandlerInternal event
                      (Z.of_nat n - Z.of_nat (min (S k) n)) (VFn L)]
         ∧ read (arrays w'') a
           = (if decide (S k < n) then [VFn (length fs)] else [])
         ∧ (∀ b, b ≠ a → read (arrays w'') b = read (arrays w') b)
         ∧ calls w''
           = calls w' ++ [mkCall (length fs) VEmitter args;
                          mkCall L VEmitter args].
Proof.
  intros (Hl & Ha & _ & Hf & Hr & _ & _) Hk.
  rewrite decide_True in Hr by done.
  rewrite (apply_wrapper _ _ event (Z.of_nat n - Z.of_nat (k `min` n))
             (VFn L)).
  2:{ rewrite Hf. by rewrite list_lookup_middle. }
  destruct w' as [s ar f p pr cs]. simpl in Hl, Ha, Hf, Hr. subst f.
  unfold handlerInternal_body, set_funs, set_calls. simpl.
  rewrite insert_last.
  assert (HLlt : L < length fs) by (by eapply lookup_lt_Some).
  destruct (decide (S k < n)) as [Hlt|Hge].
  - rewrite (proj2 (Z.eqb_neq _ _)) by lia. simpl.
    rewrite lookup_app_l, HL by done. simpl.
    eexists. split; [reflexivity|]. simpl. repeat split; try done.
    + do 3 f_equal. lia.
    + by rewrite <- app_assoc.
  - rewrite (proj2 (Z.eqb_eq _ _)) by lia.
    unfold removeListener, off.
    replace (listeners _ event) with (Some a).
    simpl. rewrite Hr. simpl.
    rewrite (off_test_match _ (length fs) (VFn (length fs)))
      by (done || by left).
    simpl.
    rewrite lookup_app_l, HL by done. simpl.
    eexists. split; [reflexivity|]. simpl. repeat split; try done.
    + apply length_alter.
    + do 3 f_equal. lia.
    + by apply read_set_elems_eq.
    + intros b Hb. by apply read_set_elems_ne.
    + by rewrite <- app_assoc.
Qed.

Lemma countdown_step c a k w' :
  counting_down event n L fs tail c a k w' →
  ∃ r w'', Run.emit fuel event args w' = Ret r w''
           ∧ counting_down event n L fs tail c a (S k) w''.
Proof.
  intros HJ. pose proof (countdown_copy _ _ _ _ HJ) as Hcopy.
  assert (Hl := proj1 HJ).
  unfold Run.emit, emit. rewrite Hl, Hcopy.
  assert (∃ f, fuel = S (S f)) as [f Hfu] by (exists (fuel - 2); lia).
  rewrite Hfu.
  assert (HLlt : L < length fs) by (by eapply lookup_lt_Some).
  destruct (decide (k < n)) as [Hk|Hk].
  - destruct (wrapper_fires c a k f w' HJ Hk)
      as (w1 & Hap & Hs1 & Hlen1 & Hf1 & Hr1 & Hother1 & Hc1).
    rewrite (emit_loop_apply _ _ _ _ _ _ _ (VFn (length fs))); [|done..].
    rewrite Hap. cbn [bind].
    rewrite (emit_loop_passive (S f) args _ tail [VFn (length fs)] (S f)
               true w1);
      [|done|by eapply tail_quiet|lia].
    eexists _, _. split; [reflexivity|].
    destruct HJ as (_ & Ha & Hna & _ & _ & Ht & Hc).
    split; [by rewrite <- Hl; apply listeners_same_self|].
    split; [simpl; lia|]. split; [simpl; by rewrite Hs1|].
    split; [exact Hf1|]. split; [exact Hr1|]. split.
    + rewrite <- Ht. unfold concat_operand. simpl. rewrite Hs1.
      destruct (all_ (self w')) as [b|]; [|done].
      apply Hother1. intros ->. by apply Hna.
    + simpl. rewrite Hc1.
      rewrite !invocations_app, Hc, HLtail.
      unfold invocations. rewrite !filter_cons. simpl.
      rewrite decide_False by lia. rewrite decide_True by done. simpl. lia.
  - destruct HJ as (_ & Ha & Hna & Hf & Hr & Ht & Hc).
    rewrite decide_False in Hr by done.
    rewrite (emit_loop_passive (S f) args _ tail [] (S (S f)) false w');
      [|done|by eapply tail_quiet|lia].
    eexists _, _. split; [reflexivity|].
    split; [exact Hl|]. split; [exact Ha|]. split; [exact Hna|]. simpl.
    split; [|split; [|split]].
    + rewrite Hf. do 3 f_equal. lia.
    + rewrite Hr. by rewrite decide_False by lia.
    + exact Ht.
    + rewrite invocations_app, Hc, HLtail. lia.
Qed.

Lemma countdown_run c a m :
  ∀ k w', counting_down event n L fs tail c a k w' →
          ∃ r w'', emit_times fuel m event args w' = Ret r w''
                   ∧ counting_down event n L fs tail c a (k + m) w''.
Proof.
  induction m as [|m IH]; intros k w' HJ.
  - exists false, w'. split; [done|]. by rewrite Nat.add_0_r.
  - destruct (countdown_step c a k w' HJ) as (r & w1 & Hemit & HJ1).
    destruct (IH (S k) w1 HJ1) as (r' & w2 & Hrun & HJ2).
    exists r', w2. split.
    + simpl. by rewrite Hemit.
    + by replace (k + S m) with (S k + m) by lia.
Qed.

End Many.

Lemma passive_more_funs w fs v :
  passive w v → passive (set_funs (funs w ++ fs) w) v.
Proof.
  intros (f & -> & Hf). exists f. split; [done|]. simpl.
  by apply lookup_app_l_Some.
Qed.

(** [many] in a world where the event has no listener. *)
Lemma many_registers (fuel : nat) w event (n L : nat)
  (Hn : 1 ≤ n)
  (Htidy : tidy w)
  (Hempty : scoped w event = [])
  (Hnew : Forall (passive w) (scoped w (EvStr "newListener")))
  (Hu : Forall (passive w) (unscoped w))
  (Hmax : (1 ≤ maxListeners_ (self w))%Z)
  (Hfuel : length (scoped w (EvStr "newListener")) + length (unscoped w) + 3
           < fuel) :
  ∃ wm a, Run.many fuel event (Z.of_nat n) (VFn L) w = Ret VEmitter wm
          ∧ counting_down event n L (funs w) (concat_operand w)
              (invocations L (calls wm)) a 0 wm.
Proof.
  unfold Run.many, many. rewrite (proj2 (Z.leb_gt _ _)) by lia.
  set (w1 := set_funs _ w).
  change (on (apply_function fuel) fuel) with (Run.on fuel).
  destruct (on_registers fuel w1 event (length (funs w)))
    as (w' & _ & Ht' & Hf' & Hsc & Hun & Hall & Hret).
  { exact Htidy. }
  { eapply Forall_impl; [exact Hnew|]. apply passive_more_funs. }
  { eapply Forall_impl; [exact Hu|]. apply passive_more_funs. }
  { change (scoped w1 (EvStr "newListener"))
      with (scoped w (EvStr "newListener")).
    change (unscoped w1) with (unscoped w). lia. }
  rewrite Hret.
  2:{ change (scoped w1 event) with (scoped w event). rewrite Hempty.
      simpl. exact Hmax. }
  cbn [bind].
  specialize (Hsc (splitNamespaces w1 event)).
  rewrite decide_True in Hsc by done.
  change (scoped_at w1 (splitNamespaces w1 event)) with (scoped w event)
    in Hsc.
  rewrite Hempty in Hsc. simpl in Hsc.
  destruct Ht' as (T1 & _ & T3).
  unfold scoped_at in Hsc.
  destruct (Trie.getKeyValue (listenersTree_ (self w'))
              (splitNamespaces w1 event)) as [a|] eqn:Ha; [|done].
  exists w', a. split; [done|].
  split; [exact Ha|]. split; [by eapply T1|]. split.
  { intros Hb. by apply (proj2 (T3 a Hb) (splitNamespaces w1 event)). }
  split; [|split; [|split]].
  - rewrite Hf'. simpl. do 3 f_equal. lia.
  - by rewrite decide_True by lia.
  - unfold concat_operand. rewrite Hall.
    change (all_ (self w1)) with (all_ (self w)).
    unfold unscoped, listenersAny in Hun. rewrite Hall in Hun.
    change (all_ (self w1)) with (all_ (self w)) in Hun.
    by destruct (all_ (self w)).
  - lia.
Qed.


(** ** A new emitter *)

Lemma listeners_new c defs event : listeners (world c defs) event = None.
Proof. unfold listeners. simpl. apply getKeyValue_empty. Qed.

Lemma scoped_new c defs event : scoped (world c defs) event = [].
Proof. unfold scoped. by rewrite listeners_new. Qed.

Lemma unscoped_new c defs : unscoped (world c defs) = [].
Proof. reflexivity. Qed.

Lemma tidy_new c defs : tidy (world c defs).
Proof.
  split; [|split]; simpl.
  - intros p a Hp. by rewrite getKeyValue_empty in Hp.
  - intros p q a Hp. by rewrite getKeyValue_empty in Hp.
  - done.
Qed.

(** ** The properties at concrete worlds *)

Lemma invalid_listener_throws_and_misses_are_noops_witness :
  unscoped world_observed = [VFn 2]
  ∧ scoped world_observed (EvStr "y") = [VFn 1]
  ∧ (Run.on 2 (EvStr "y") (VNum 3) world_observed
     = Raise (TypeError "Listener must be a function") world_observed
     ∧ Run.addListener 2 (EvStr "y") (VNum 3) world_observed
       = Raise (TypeError "Listener must be a function") world_observed
     ∧ off (EvStr "y") (VNum 3) world_observed
       = Raise (TypeError "Listener must be a function") world_observed
     ∧ removeListener (EvStr "y") (VNum 3) world_observed
       = Raise (TypeError "Listener must be a function") world_observed
     ∧ offAny (VNum 3) world_observed
       = Raise (TypeError "Listener must be a function") world_observed)
  ∧ (off (EvStr "y") (VFn 0) world_observed = Ret VEmitter world_observed
     ∧ removeListener (EvStr "y") (VFn 0) world_observed
       = Ret VEmitter world_observed)
  ∧ off (EvStr "never") (VFn 0) world_observed = Ret VEmitter world_observed
  ∧ offAny (VFn 0) world_observed = Ret VEmitter world_observed
  ∧ Run.emit 2 (EvStr "y") [] world_one_listener
    = Ret false world_one_listener.
Proof.
  assert (Hun : unscoped world_observed = [VFn 2])
    by (vm_compute; reflexivity).
  assert (Hy : scoped world_observed (EvStr "y") = [VFn 1])
    by (vm_compute; reflexivity).
  assert (Hnever : scoped world_observed (EvStr "never") = [])
    by (vm_compute; reflexivity).
  split; [exact Hun|]. split; [exact Hy|].
  destruct (invalid_listener_throws_and_misses_are_noops
              2 world_observed (EvStr "y") (EvStr "y") (VNum 3) 0 [])
    as (Hthrow & Hoff & HoffAny & _).
  destruct (invalid_listener_throws_and_misses_are_noops
              2 world_observed (EvStr "never") (EvStr "y") (VNum 3) 0 [])
    as (_ & Hnone & _).
  destruct (invalid_listener_throws_and_misses_are_noops
              2 world_one_listener (EvStr "x") (EvStr "y") (VNum 3) 1 [])
    as (_ & _ & _ & Hemit).
  split; [|split; [|split; [|split]]].
  - apply Hthrow. reflexivity.
  - apply Hoff. rewrite Hy. constructor; [|constructor].
    split; [reflexivity|].
    intros [Heq|(g & Hg & Ho)]; [discriminate Heq|].
    inversion Hg; subst g. vm_compute in Ho. discriminate Ho.
  - apply Hnone. rewrite Hnever. constructor.
  - apply HoffAny. rewrite Hun. intros Hin.
    apply list_elem_of_singleton in Hin. discriminate Hin.
  - apply Hemit.
    + lia.
    + vm_compute. reflexivity.
    + vm_compute. reflexivity.
Defined.

Lemma off_removes_first_match_witness :
  off (EvStr "x") (VFn 0) world_wrapper_and_duplicate
  = Ret VEmitter
      (set_arrays
         (set_elems 0 ([] ++ [VFn 0; VFn 1])
            (arrays world_wrapper_and_duplicate))
         world_wrapper_and_duplicate)
  ∧ read (set_elems 0 ([] ++ [VFn 0; VFn 1])
            (arrays world_wrapper_and_duplicate)) 0
    = [] ++ [VFn 0; VFn 1]
  ∧ off (EvStr "x") (VFn 1)
      (set_arrays
         (set_elems 0 [VFn 0] (arrays world_wrapper_and_duplicate))
         world_wrapper_and_duplicate)
    = Ret VEmitter
        (set_arrays
           (set_elems 0 [VFn 0] (arrays world_wrapper_and_duplicate))
           world_wrapper_and_duplicate).
Proof.
  assert (Hlist : listeners world_wrapper_and_duplicate (EvStr "x") = Some 0)
    by (vm_compute; reflexivity).
  assert (Hread : read (arrays world_wrapper_and_duplicate) 0
                  = [VFn 2; VFn 0; VFn 1])
    by (vm_compute; reflexivity).
  assert (Hfun : Forall (λ y, is_function y = true)
                   (read (arrays world_wrapper_and_duplicate) 0))
    by (rewrite Hread; by repeat constructor).
  destruct (off_removes_first_match world_wrapper_and_duplicate
              (EvStr "x") 0 0 Hlist Hfun) as (Hfirst & _ & Hwrap).
  destruct (Hfirst [] (VFn 2) [VFn 0; VFn 1] Hread ltac:(constructor)
              (Hwrap 2 (EvStr "x") 2%Z ltac:(vm_compute; reflexivity)))
    as (Hoff & Hnow & _).
  split; [exact Hoff|]. split; [exact Hnow|].
  apply (off_removes_first_match
           (set_arrays
              (set_elems 0 [VFn 0] (arrays world_wrapper_and_duplicate))
              world_wrapper_and_duplicate)
           (EvStr "x") 1 0).
  - vm_compute. reflexivity.
  - replace (read _ 0) with [VFn 0] by (vm_compute; reflexivity).
    by repeat constructor.
  - replace (read _ 0) with [VFn 0] by (vm_compute; reflexivity).
    constructor; [|constructor].
    intros [Heq|(g & Hg & Ho)]; [discriminate Heq|].
    inversion Hg; subst g. vm_compute in Ho. discriminate Ho.
Defined.

Lemma removeAllListeners_scope_witness :
  (∃ w', removeAllListeners (Some (EvStr "x")) world_two_paths
         = Ret VEmitter w'
         ∧ listeners w' (EvStr "x") = Some (length (arrays world_two_paths))
         ∧ scoped w' (EvStr "x") = []
         ∧ (∀ q, splitNamespaces world_two_paths q
                 ≠ splitNamespaces world_two_paths (EvStr "x") →
                 listeners w' q = listeners world_two_paths q)
         ∧ (∀ b arr, arrays world_two_paths !! b = Some arr →
                     arrays w' !! b = Some arr)
         ∧ listenersAny w' = listenersAny world_two_paths)
  ∧ (∃ w', removeAllListeners None world_two_paths = Ret VEmitter w'
           ∧ (∀ x, listeners w' x = None)
           ∧ listenersAny w' = None).
Proof.
  apply (removeAllListeners_scope world_two_paths (EvStr "x")).
  reflexivity.
Defined.

Lemma emit_applies_scoped_then_unscoped_witness :
  scoped
    (register_all 5 [RegAny 3; RegOn (EvStr "x") 4; RegOn (EvStr "x") 2]
       (world standard_console (replicate 5 (UserFn []))))
    (EvStr "x")
  = [VFn 4; VFn 2]
  ∧ unscoped
      (register_all 5 [RegAny 3; RegOn (EvStr "x") 4; RegOn (EvStr "x") 2]
         (world standard_console (replicate 5 (UserFn []))))
    = [VFn 3]
  ∧ outcome
      (Run.emit 5 (EvStr "x") [VNum 7]
         (register_all 5 [RegAny 3; RegOn (EvStr "x") 4; RegOn (EvStr "x") 2]
            (world standard_console (replicate 5 (UserFn [])))))
    = Some (true, [mkCall 3 VEmitter [VStr "x"; VFn 4];
                   mkCall 3 VEmitter [VStr "x"; VFn 2];
                   mkCall 4 VEmitter [VNum 7];
                   mkCall 2 VEmitter [VNum 7];
                   mkCall 3 VEmitter [VNum 7]]).
Proof.
  destruct (emit_applies_scoped_then_unscoped 5
              (world standard_console (replicate 5 (UserFn [])))
              [RegAny 3; RegOn (EvStr "x") 4; RegOn (EvStr "x") 2]
              (EvStr "x") [VNum 7]) as (Hs & Hu & Hemit & _).
  - apply tidy_new.
  - repeat constructor.
  - rewrite scoped_new. constructor.
  - rewrite scoped_new. constructor.
  - rewrite unscoped_new. constructor.
  - rewrite !scoped_new, unscoped_new. simpl. lia.
  - split; [rewrite Hs; vm_compute; reflexivity|].
    split; [rewrite Hu; vm_compute; reflexivity|].
    rewrite Hemit. vm_compute. reflexivity.
Defined.


Lemma emit_walks_copy_or_live_list_witness :
  Run.emit 4 (EvStr "x") [] world_once_then_other
  = visit_each (apply_function 4) [] (concat_all world_once_then_other 0)
      false world_once_then_other
  ∧ concat_all world_once_then_other 0 = [VFn 2; VFn 1; VNull]
  ∧ observe (EvStr "x") (Run.emit 4 (EvStr "x") [] world_once_then_other)
    = Some (Some true, [2; 0; 1], [VFn 1], []).
Proof.
  split; [|split; vm_compute; reflexivity].
  apply (emit_walks_copy_or_live_list 4 world_once_then_other (EvStr "x")
           [] 0).
  - vm_compute. reflexivity.
  - apply Nat.ltb_lt. vm_compute. reflexivity.
Defined.

(** * Further properties of the methods *)

(** ** Merging listener arrays *)

Lemma foldl_push_spec a l :
  ∀ h : list Arr,
    a < length h →
    read (foldl (λ h' v, push a v h') h l) a = read h a ++ l
    ∧ length (foldl (λ h' v, push a v h') h l) = length h
    ∧ (∀ x, x ≠ a → foldl (λ h' v, push a v h') h l !! x = h !! x)
    ∧ warned <$> foldl (λ h' v, push a v h') h l !! a = warned <$> h !! a.
Proof.
  induction l as [|v l IH]; intros h Ha; simpl.
  - by rewrite app_nil_r.
  - destruct (IH (push a v h)) as (Hr & Hlen & Hother & Hw).
    { by rewrite length_push. }
    rewrite Hr, Hlen, Hw, read_push_eq, length_push, <- app_assoc by done.
    split; [done|]. split; [done|]. split.
    + intros x Hx. rewrite Hother by done. unfold push.
      by rewrite list_lookup_alter_ne.
    + unfold push. rewrite list_lookup_alter_eq. by destruct (h !! a).
Qed.

(** X1: [mergeListenerArrays_(arr1, arr2)], for two different arrays,
    returns [arr1] itself, whose entries are now its old entries followed
    by those of [arr2] in order; its [warned] property, every other array
    ([arr2] included) and the number of arrays stay as they were. *)
Theorem mergeListenerArrays_appends_in_place (h : list Arr) arr1 arr2
  (Hin : arr1 < length h) (Hne : arr1 ≠ arr2) :
  fst (mergeListenerArrays_ arr1 arr2 h) = arr1
  ∧ read (snd (mergeListenerArrays_ arr1 arr2 h)) arr1
    = read h arr1 ++ read h arr2
  ∧ read (snd (mergeListenerArrays_ arr1 arr2 h)) arr2 = read h arr2
  ∧ (∀ x, x ≠ arr1 → snd (mergeListenerArrays_ arr1 arr2 h) !! x = h !! x)
  ∧ length (snd (mergeListenerArrays_ arr1 arr2 h)) = length h
  ∧ warned <$> snd (mergeListenerArrays_ arr1 arr2 h) !! arr1
    = warned <$> h !! arr1.
Proof.
  unfold mergeListenerArrays_. simpl.
  destruct (foldl_push_spec arr1 (read h arr2) h Hin)
    as (Hr & Hlen & Hother & Hw).
  split; [done|]. split; [done|]. split; [|done].
  unfold read at 1. by rewrite Hother by done.
Qed.

(** ** What a registration does, step by step *)

Lemma warned_at_push (h : list Arr) a v x w :
  arrays w = push a v h →
  warned_at w x = match h !! x with Some arr => warned arr | None => false end.
Proof.
  intros Hw. unfold warned_at. rewrite Hw. unfold push.
  destruct (decide (a = x)) as [->|Hne].
  - rewrite list_lookup_alter_eq. by destruct (h !! x).
  - by rewrite list_lookup_alter_ne.
Qed.

(** [on] with a function, in a well-formed world with passive listeners:
    the notification is sent, the function is stored at the end of the
    list of the event (the list it had, or a new one), and the call ends
    with the leak test. *)
Lemma on_outcome (fuel : nat) w event f :
  tidy w →
  Forall (passive w) (scoped w (EvStr "newListener")) →
  Forall (passive w) (unscoped w) →
  length (scoped w (EvStr "newListener")) + length (unscoped w) + 1 < fuel →
  ∃ a w2,
    listeners w2 event = Some a
    ∧ (listeners w event = Some a
       ∨ (listeners w event = None ∧ a = length (arrays w)))
    ∧ a < length (arrays w2)
    ∧ read (arrays w2) a = scoped w event ++ [VFn f]
    ∧ warned_at w2 a = was_warned w event
    ∧ calls w2
      = calls w ++ applications [event_value event; VFn f]
                     (scoped w (EvStr "newListener") ++ unscoped w)
    ∧ printed w2 = printed w
    ∧ console w2 = console w
    ∧ maxListeners_ (self w2) = maxListeners_ (self w)
    ∧ Run.on fuel event (VFn f) w
      = if exceeds w event then
          run _, w3 :=
            console_call "warning" (length (scoped w event) + 1) event w2 in
          Ret VEmitter (set_arrays (set_warned a (arrays w3)) w3)
        else Ret VEmitter w2.
Proof.
  intros (T1 & T2 & T3) Hnew Hu Hfuel.
  unfold Run.on, on, addListener. cbn [is_function negb].
  destruct fuel as [|k]; [lia|].
  rewrite emit_passive by done. cbn [bind].
  set (w1 := set_calls _ w). cbn [new_array].
  destruct (Trie.setKeyValue (Some mergeListenerArrays_)
              (listenersTree_ (self w1)) (splitNamespaces w1 event)
              (length (arrays w1)) (arrays w1 ++ [mkArr [VFn f] false]))
    as [[tree a] h'] eqn:Hset.
  destruct (setKeyValue_spec _ _ _ _ _ _ _ _ Hset) as (Hst & Hget & _).
  change (listenersTree_ (self w1)) with (listenersTree_ (self w)) in *.
  change (splitNamespaces w1 event) with (splitNamespaces w event) in *.
  change (arrays w1) with (arrays w) in *.
  set (w2 := set_self _ _).
  assert (Hl2 : listeners w2 event = Some a) by exact Hget.
  assert (Hfacts :
    (listeners w event = Some a
     ∨ (listeners w event = None ∧ a = length (arrays w)))
    ∧ a < length (arrays w2)
    ∧ read (arrays w2) a = scoped w event ++ [VFn f]
    ∧ warned_at w2 a = was_warned w event).
  { unfold Trie.store_at in Hst. unfold scoped, was_warned, listeners.
    destruct (Trie.getKeyValue (listenersTree_ (self w))
                (splitNamespaces w event)) as [a0|] eqn:Hp0.
    - unfold mergeListenerArrays_ in Hst. rewrite read_new in Hst.
      simpl in Hst. inversion Hst; subst a h'; clear Hst.
      pose proof (T1 _ _ Hp0) as Ha0.
      split; [by left|]. split; [|split].
      + simpl. rewrite length_push, length_app. lia.
      + simpl. rewrite read_push_eq by (rewrite length_app; lia).
        by rewrite read_app_old.
      + rewrite (warned_at_push _ a0 (VFn f) a0 w2 eq_refl).
        unfold warned_at. by rewrite lookup_app_l.
    - inversion Hst; subst a h'; clear Hst.
      split; [by right|]. split; [|split].
      + simpl. rewrite length_app. simpl. lia.
      + simpl. apply read_new.
      + unfold warned_at. simpl. by rewrite list_lookup_middle. }
  destruct Hfacts as (Haddr & Hlt & Hread & Hwarn).
  exists a, w2. split; [exact Hl2|]. split; [exact Haddr|].
  split; [exact Hlt|]. split; [exact Hread|]. split; [exact Hwarn|].
  split; [done|]. split; [done|]. split; [done|]. split; [done|].
  fold (warned_at w2 a). rewrite Hread, Hwarn, length_app. simpl.
  reflexivity.
Qed.

Lemma warned_at_set_warned w a :
  a < length (arrays w) →
  warned_at (set_arrays (set_warned a (arrays w)) w) a = true.
Proof.
  intros Ha. unfold warned_at, set_warned. simpl.
  rewrite list_lookup_alter_eq.
  by destruct (lookup_lt_is_Some_2 _ _ Ha) as [arr ->].
Qed.

(** The three ways [on] can end, with the world each leaves. *)
Lemma on_world (fuel : nat) w event f :
  tidy w →
  Forall (passive w) (scoped w (EvStr "newListener")) →
  Forall (passive w) (unscoped w) →
  length (scoped w (EvStr "newListener")) + length (unscoped w) + 1 < fuel →
  ∃ a w',
    world_of (Run.on fuel event (VFn f) w) = Some w'
    ∧ listeners w' event = Some a
    ∧ (listeners w event = Some a
       ∨ (listeners w event = None ∧ a = length (arrays w)))
    ∧ read (arrays w') a = scoped w event ++ [VFn f]
    ∧ calls w'
      = calls w ++ applications [event_value event; VFn f]
                     (scoped w (EvStr "newListener") ++ unscoped w)
    ∧ maxListeners_ (self w') = maxListeners_ (self w)
    ∧ console w' = console w
    ∧ (exceeds w event = false →
       Run.on fuel event (VFn f) w = Ret VEmitter w'
       ∧ printed w' = printed w
       ∧ warned_at w' a = was_warned w event)
    ∧ (exceeds w event = true → "warning" ∈ console w →
       Run.on fuel event (VFn f) w = Ret VEmitter w'
       ∧ printed w'
         = printed w ++ [mkDiag "warning" (length (scoped w event) + 1) event]
       ∧ warned_at w' a = true)
    ∧ (exceeds w event = true → "warning" ∉ console w →
       Run.on fuel event (VFn f) w
       = Raise (TypeError "console.warning is not a function") w'
       ∧ printed w' = printed w
       ∧ warned_at w' a = was_warned w event).
Proof.
  intros Htidy Hnew Hu Hfuel.
  destruct (on_outcome fuel w event f Htidy Hnew Hu Hfuel)
    as (a & w2 & Hl & Haddr & Hlt & Hread & Hwarn & Hcalls & Hpr & Hcon
        & Hmax & Hon).
  rewrite Hon. destruct (exceeds w event) eqn:Hex.
  - unfold console_call. rewrite Hcon.
    destruct (decide ("warning" ∈ console w)) as [Hin|Hout].
    + rewrite bool_decide_eq_true_2 by done. cbn [bind].
      eexists a, _. split; [reflexivity|]. simpl.
      split; [exact Hl|]. split; [exact Haddr|].
      split; [by rewrite read_set_warned|]. split; [exact Hcalls|].
      split; [exact Hmax|]. split; [exact Hcon|].
      split; [done|]. split; [|done]. intros _ _.
      split; [done|]. split; [by rewrite Hpr|].
      apply (warned_at_set_warned
               (set_printed
                  (printed w2
                   ++ [mkDiag "warning" (length (scoped w event) + 1) event])
                  w2)).
      exact Hlt.
    + rewrite bool_decide_eq_false_2 by done. cbn [bind].
      exists a, w2. split; [reflexivity|].
      split; [exact Hl|]. split; [exact Haddr|]. split; [exact Hread|].
      split; [exact Hcalls|]. split; [exact Hmax|]. split; [exact Hcon|].
      split; [done|]. split; [done|]. intros _ _. done.
  - exists a, w2. split; [reflexivity|].
    split; [exact Hl|]. split; [exact Haddr|]. split; [exact Hread|].
    split; [exact Hcalls|]. split; [exact Hmax|]. split; [exact Hcon|].
    split; [done|]. split; done.
Qed.

(** X2: [on] stores the function at the end of the list the event
    already has, in the same array object that [listeners(event)] returned
    before the call; when the event has no list, a new array becomes its
    list. This holds also when the call ends by throwing at the
    warning. *)
Theorem on_appends_to_the_same_list (fuel : nat) w event f
  (Htidy : tidy w)
  (Hnew : Forall (passive w) (scoped w (EvStr "newListener")))
  (Hu : Forall (passive w) (unscoped w))
  (Hfuel : length (scoped w (EvStr "newListener")) + length (unscoped w) + 1
           < fuel) :
  ∃ w', world_of (Run.on fuel event (VFn f) w) = Some w'
        ∧ scoped w' event = scoped w event ++ [VFn f]
        ∧ listeners w' event
          = Some (default (length (arrays w)) (listeners w event)).
Proof.
  destruct (on_world fuel w event f Htidy Hnew Hu Hfuel)
    as (a & w' & Hw' & Hl & Haddr & Hread & _).
  exists w'. split; [exact Hw'|]. split.
  - unfold scoped. by rewrite Hl.
  - rewrite Hl. by destruct Haddr as [->|[-> ->]].
Qed.


(** X4: in a host whose console has a [warning] method, [on] with a
    function always returns the emitter. It prints one leak line, with
    the new length of the list and the event, exactly when that length is
    above [maxListeners_] and the list is not flagged yet, and it flags
    the list then; a flagged list stays flagged, so no second line is
    printed for it. *)
Theorem on_warns_when_limit_first_exceeded (fuel : nat) w event f
  (Htidy : tidy w)
  (Hnew : Forall (passive w) (scoped w (EvStr "newListener")))
  (Hu : Forall (passive w) (unscoped w))
  (Hfuel : length (scoped w (EvStr "newListener")) + length (unscoped w) + 1
           < fuel)
  (Hconsole : "warning" ∈ console w) :
  ∃ w', Run.on fuel event (VFn f) w = Ret VEmitter w'
        ∧ printed w'
          = printed w
            ++ (if exceeds w event
                then [mkDiag "warning" (length (scoped w event) + 1) event]
                else [])
        ∧ was_warned w' event = was_warned w event || exceeds w event
        ∧ (was_warned w event || exceeds w event = true →
           exceeds w' event = false).
Proof.
  destruct (on_world fuel w event f Htidy Hnew Hu Hfuel)
    as (a & w' & _ & Hl & _ & Hread & _ & Hmax & _ & Hno & Hyes & _).
  exists w'.
  assert (Hww : was_warned w' event = warned_at w' a)
    by (unfold was_warned; by rewrite Hl).
  assert (Hflag : was_warned w' event = true → exceeds w' event = false).
  { intros Hf. unfold exceeds. rewrite Hf. apply andb_false_r. }
  destruct (exceeds w event) eqn:Hex.
  - destruct (Hyes eq_refl Hconsole) as (Hon & Hpr & Hwa).
    split; [exact Hon|]. split; [exact Hpr|].
    rewrite Hww, Hwa, orb_true_r. split; [done|].
    intros _. apply Hflag. by rewrite Hww.
  - destruct (Hno eq_refl) as (Hon & Hpr & Hwa).
    split; [exact Hon|]. split; [by rewrite Hpr, app_nil_r|].
    rewrite Hww, Hwa, orb_false_r. split; [done|].
    intros Hf. apply Hflag. by rewrite Hww, Hwa.
Qed.

(** X5: in a host whose console has no [warning] method, [on] with a
    function throws a TypeError whenever the new length of the list is
    above [maxListeners_] and the list is not flagged. The function is
    stored all the same, nothing is printed and the list is left
    unflagged, so the next registration for the event meets the same test
    again. When the test is not met, [on] returns the emitter. *)
Theorem on_throws_where_console_has_no_warning (fuel : nat) w event f
  (Htidy : tidy w)
  (Hnew : Forall (passive w) (scoped w (EvStr "newListener")))
  (Hu : Forall (passive w) (unscoped w))
  (Hfuel : length (scoped w (EvStr "newListener")) + length (unscoped w) + 1
           < fuel)
  (Hconsole : "warning" ∉ console w) :
  ∃ w', Run.on fuel event (VFn f) w
        = (if exceeds w event
           then Raise (TypeError "console.warning is not a function") w'
           else Ret VEmitter w')
        ∧ scoped w' event = scoped w event ++ [VFn f]
        ∧ printed w' = printed w
        ∧ was_warned w' event = was_warned w event
        ∧ (exceeds w event = true → exceeds w' event = true).
Proof.
  destruct (on_world fuel w event f Htidy Hnew Hu Hfuel)
    as (a & w' & _ & Hl & _ & Hread & _ & Hmax & _ & Hno & _ & Hthrow).
  exists w'.
  assert (Hww : was_warned w' event = warned_at w' a)
    by (unfold was_warned; by rewrite Hl).
  assert (Hsc : scoped w' event = scoped w event ++ [VFn f])
    by (unfold scoped at 1; by rewrite Hl).
  destruct (exceeds w event) eqn:Hex.
  - destruct (Hthrow eq_refl Hconsole) as (Hon & Hpr & Hwa).
    split; [exact Hon|]. split; [exact Hsc|]. split; [exact Hpr|].
    split; [by rewrite Hww|]. intros _.
    unfold exceeds in *. rewrite Hww, Hwa, Hsc, Hmax, length_app.
    apply andb_true_iff in Hex as [Hlen Hflag].
    apply andb_true_iff. split; [|done].
    apply Z.ltb_lt in Hlen. apply Z.ltb_lt. simpl. lia.
  - destruct (Hno eq_refl) as (Hon & Hpr & Hwa).
    split; [exact Hon|]. split; [exact Hsc|]. split; [exact Hpr|].
    split; [by rewrite Hww|]. done.
Qed.

(** X6: [on] changes the list of no other path and not the unscoped list,
    defines no function, and keeps the store well formed. *)
Theorem on_leaves_other_lists (fuel : nat) w event f
  (Htidy : tidy w)
  (Hnew : Forall (passive w) (scoped w (EvStr "newListener")))
  (Hu : Forall (passive w) (unscoped w))
  (Hfuel : length (scoped w (EvStr "newListener")) + length (unscoped w) + 1
           < fuel) :
  ∃ w', world_of (Run.on fuel event (VFn f) w) = Some w'
        ∧ (∀ other, splitNamespaces w other ≠ splitNamespaces w event →
                    scoped w' other = scoped w other)
        ∧ unscoped w' = unscoped w
        ∧ listenersAny w' = listenersAny w
        ∧ funs w' = funs w
        ∧ tidy w'.
Proof.
  destruct (on_registers fuel w event f Htidy Hnew Hu Hfuel)
    as (w' & Hw' & Ht & Hf & Hsc & Hun & Hall & _).
  exists w'. split; [exact Hw'|]. split; [|done].
  intros other Hne. rewrite !scoped_is_scoped_at.
  change (splitNamespaces w' other) with (splitNamespaces w other).
  rewrite Hsc. rewrite decide_False by done. apply app_nil_r.
Qed.

(** ** The unscoped list *)

Lemma onAny_stores w v :
  tidy w →
  ∃ w', onAny v w = Ret VEmitter w'
        ∧ tidy w' ∧ funs w' = funs w
        ∧ (∀ p, scoped_at w' p = scoped_at w p)
        ∧ unscoped w' = unscoped w ++ [v]
        ∧ listenersAny w'
          = Some (default (length (arrays w)) (listenersAny w))
        ∧ calls w' = calls w ∧ printed w' = printed w.
Proof.
  intros (T1 & T2 & T3). unfold onAny, listenersAny.
  destruct (all_ (self w)) as [b|] eqn:Hb.
  - destruct (T3 b eq_refl) as [Hlt Hno].
    eexists. split; [reflexivity|]. split; [|split; [done|split]].
    + split; [|split]; simpl.
      * intros p a Hp. rewrite length_push. by eapply T1.
      * exact T2.
      * rewrite Hb. intros b' Hb'. inversion Hb'; subst b'.
        rewrite length_push. done.
    + intros p. unfold scoped_at. simpl.
      destruct (Trie.getKeyValue _ p) as [a|] eqn:Hp; [|done].
      apply read_push_ne. intros <-. by apply (Hno p).
    + unfold unscoped, listenersAny. simpl. rewrite Hb.
      split; [by apply read_push_eq|done].
  - cbn [new_array]. eexists. split; [reflexivity|].
    split; [|split; [done|split]].
    + split; [|split]; simpl.
      * intros p a Hp. rewrite length_push, length_app. simpl.
        apply T1 in Hp. lia.
      * exact T2.
      * intros b' Hb'. inversion Hb'; subst b'. split.
        -- rewrite length_push, length_app. simpl. lia.
        -- intros p Hp. apply T1 in Hp. lia.
    + intros p. unfold scoped_at. simpl.
      destruct (Trie.getKeyValue _ p) as [a|] eqn:Hp; [|done].
      apply T1 in Hp. rewrite read_push_ne by lia. by apply read_app_old.
    + unfold unscoped, listenersAny. simpl. rewrite Hb. simpl.
      split; [|done].
      rewrite read_push_eq by (rewrite length_app; simpl; lia).
      by rewrite read_new.
Qed.

(** X7: [onAny] makes no check of its argument: whatever value it is
    given, function or not, it returns the emitter and the value is the
    new last entry of the unscoped list, in the array [all_] already was
    or in a new one when [all_] was [null]. No path list changes, no
    listener is applied (no ["newListener"] is emitted) and nothing is
    printed. *)
Theorem onAny_stores_any_value w v
  (Htidy : tidy w) :
  ∃ w', onAny v w = Ret VEmitter w'
        ∧ unscoped w' = unscoped w ++ [v]
        ∧ listenersAny w'
          = Some (default (length (arrays w)) (listenersAny w))
        ∧ (∀ event, scoped w' event = scoped w event)
        ∧ calls w' = calls w ∧ printed w' = printed w
        ∧ tidy w'.
Proof.
  destruct (onAny_stores w v Htidy)
    as (w' & Hon & Ht & _ & Hsc & Hun & Hall & Hc & Hp).
  exists w'. split; [exact Hon|]. split; [exact Hun|].
  split; [exact Hall|]. split; [|done].
  intros event. rewrite !scoped_is_scoped_at. apply Hsc.
Qed.

Lemma remove_first_middle f l1 l2 :
  VFn f ∉ l1 → remove_first f (l1 ++ VFn f :: l2) = l1 ++ l2.
Proof.
  induction l1 as [|y l1 IH]; intros Hnot; simpl.
  - by rewrite bool_decide_eq_true_2.
  - rewrite bool_decide_eq_false_2 by (intros ->; apply Hnot; left).
    rewrite IH; [done|]. intros Hin. apply Hnot. by right.
Qed.

Lemma offAny_removes w f l1 l2 :
  tidy w → unscoped w = l1 ++ VFn f :: l2 → VFn f ∉ l1 →
  ∃ w', offAny (VFn f) w = Ret VEmitter w'
        ∧ unscoped w' = l1 ++ l2
        ∧ listenersAny w' = listenersAny w
        ∧ (∀ p, scoped_at w' p = scoped_at w p)
        ∧ funs w' = funs w ∧ calls w' = calls w
        ∧ tidy w'.
Proof.
  intros (T1 & T2 & T3) Hun Hnot. unfold offAny.
  unfold unscoped, listenersAny in *.
  destruct (all_ (self w)) as [b|] eqn:Hb; [|by destruct l1].
  destruct (T3 b eq_refl) as [Hlt Hno].
  eexists. split; [reflexivity|]. simpl. rewrite Hb.
  split; [|split; [done|split; [|split; [done|split; [done|]]]]].
  - rewrite read_set_elems_eq by done. rewrite Hun.
    by apply remove_first_middle.
  - intros p. unfold scoped_at. simpl.
    destruct (Trie.getKeyValue _ p) as [a|] eqn:Hp; [|done].
    apply read_set_elems_ne. intros <-. by apply (Hno p).
  - split; [|split]; simpl.
    + intros p a Hp. unfold set_elems. rewrite length_alter. by eapply T1.
    + exact T2.
    + rewrite Hb. intros b' Hb'. inversion Hb'; subst b'.
      unfold set_elems. by rewrite length_alter.
Qed.

(** X8: [offAny] with a function removes from the unscoped list the first
    entry that is that very function and nothing else: later occurrences
    stay, and so do wrappers whose [origin] is the function, since
    [offAny] compares by identity only. The list stays the same array,
    and no path list changes. *)
Theorem offAny_removes_first_identical_entry w f l1 l2
  (Htidy : tidy w)
  (Hsplit : unscoped w = l1 ++ VFn f :: l2)
  (Hfirst : VFn f ∉ l1) :
  ∃ w', offAny (VFn f) w = Ret VEmitter w'
        ∧ unscoped w' = l1 ++ l2
        ∧ listenersAny w' = listenersAny w
        ∧ (∀ event, scoped w' event = scoped w event)
        ∧ tidy w'.
Proof.
  destruct (offAny_removes w f l1 l2 Htidy Hsplit Hfirst)
    as (w' & Hoff & Hun & Hall & Hsc & _ & _ & Ht).
  exists w'. split; [exact Hoff|]. split; [exact Hun|].
  split; [exact Hall|]. split; [|exact Ht].
  intros event. rewrite !scoped_is_scoped_at. apply Hsc.
Qed.

(** X9: [onAny(f)] followed by [offAny(f)], for a function that was not
    in the unscoped list, gives back the entries the list had; but the
    list is then an array, empty if there were no entries, and not the
    [null] it may have been before. *)
Theorem onAny_then_offAny w f
  (Htidy : tidy w)
  (Hfresh : VFn f ∉ unscoped w) :
  ∃ w', chain [onAny (VFn f); offAny (VFn f)] w = Ret VEmitter w'
        ∧ unscoped w' = unscoped w
        ∧ listenersAny w'
          = Some (default (length (arrays w)) (listenersAny w))
        ∧ (∀ event, scoped w' event = scoped w event).
Proof.
  destruct (onAny_stores w (VFn f) Htidy)
    as (w1 & Hon & Ht1 & _ & Hsc1 & Hun1 & Hall1 & _).
  destruct (offAny_removes w1 f (unscoped w) [] Ht1 Hun1 Hfresh)
    as (w2 & Hoff & Hun2 & Hall2 & Hsc2 & _).
  exists w2. unfold chain. cbn [foldl bind]. rewrite Hon. cbn [bind].
  rewrite Hoff.
  split; [done|]. split; [by rewrite Hun2, app_nil_r|].
  split; [by rewrite Hall2|].
  intros event. rewrite !scoped_is_scoped_at.
  change (splitNamespaces w2 event) with (splitNamespaces w event).
  by rewrite Hsc2, Hsc1.
Qed.

(** ** Registering and removing *)

Lemma matches_same_funs w' w f y :
  funs w' = funs w → matches w' f y → matches w f y.
Proof.
  intros Hf [->|(g & -> & Ho)]; [by left|right].
  exists g. split; [done|]. unfold origin in *. by rewrite <- Hf.
Qed.

(** X10: [on(e, f)] followed by [off(e, f)], when no entry of the list of
    [e] was [f] or a wrapper of [f], gives back the entries the list had
    (also when [on] threw at the warning); but [e] then has a list, empty
    if there were no entries, where it may have had none before. *)
Theorem on_then_off (fuel : nat) w event f
  (Htidy : tidy w)
  (Hnew : Forall (passive w) (scoped w (EvStr "newListener")))
  (Hu : Forall (passive w) (unscoped w))
  (Hfuel : length (scoped w (EvStr "newListener")) + length (unscoped w) + 1
           < fuel)
  (Hmiss : Forall (λ y, is_function y = true ∧ ¬ matches w f y)
             (scoped w event)) :
  ∃ w1 w2, world_of (Run.on fuel event (VFn f) w) = Some w1
           ∧ off event (VFn f) w1 = Ret VEmitter w2
           ∧ scoped w2 event = scoped w event
           ∧ listeners w2 event
             = Some (default (length (arrays w)) (listeners w event))
           ∧ (∀ other, splitNamespaces w other ≠ splitNamespaces w event →
                       scoped w2 other = scoped w other)
           ∧ unscoped w2 = unscoped w.
Proof.
  destruct (on_world fuel w event f Htidy Hnew Hu Hfuel)
    as (a & w1 & Hw1 & Hl & Haddr & Hread & _).
  destruct (on_registers fuel w event f Htidy Hnew Hu Hfuel)
    as (w1' & Hw1' & (T1 & T2 & T3) & Hf1 & Hsc1 & Hun1 & Hall1 & _).
  rewrite Hw1 in Hw1'. inversion Hw1'; subst w1'; clear Hw1'.
  pose proof (T1 _ _ Hl) as Halloc.
  exists w1, (set_arrays (set_elems a (scoped w event ++ []) (arrays w1)) w1).
  split; [exact Hw1|]. split.
  { unfold off. rewrite Hl, Hread.
    rewrite (off_scan_first_match w1 f (scoped w event) (VFn f) []);
      [done| |done|by left].
    eapply Forall_impl; [exact Hmiss|]. intros y [Hy Hno].
    split; [done|]. intros Hm. apply Hno. by eapply matches_same_funs. }
  rewrite app_nil_r.
  assert (Hl2 : listeners
                  (set_arrays (set_elems a (scoped w event) (arrays w1)) w1)
                  event = Some a) by exact Hl.
  split; [|split; [|split]].
  - unfold scoped at 1. rewrite Hl2. simpl. by apply read_set_elems_eq.
  - rewrite Hl2. by destruct Haddr as [->|[-> ->]].
  - intros other Hne. rewrite !scoped_is_scoped_at.
    change (splitNamespaces _ other) with (splitNamespaces w other).
    assert (Hs : scoped_at w1 (splitNamespaces w other)
                 = scoped_at w (splitNamespaces w other)).
    { rewrite Hsc1, decide_False by (intros Heq; by apply Hne).
      apply app_nil_r. }
    rewrite <- Hs. unfold scoped_at. simpl.
    destruct (Trie.getKeyValue _ (splitNamespaces w other)) as [a'|] eqn:Ha';
      [|done].
    apply read_set_elems_ne. intros <-. apply Hne. symmetry.
    by eapply T2.
  - rewrite <- Hun1. unfold unscoped, listenersAny. simpl.
    destruct (all_ (self w1)) as [b|] eqn:Hb; [|done].
    apply read_set_elems_ne. intros <-.
    by apply (proj2 (T3 a eq_refl) (splitNamespaces w event)).
Qed.

(** ** What [emit] does with entries that are not passive listeners *)

Lemma apply_non_function k v args w :
  is_function v = false →
  apply_function (S k) v args w
  = Raise (TypeError "apply is not a function") w.
Proof. intros Hv. by destruct v. Qed.

Lemma apply_thrower k t body args w :
  funs w !! t = Some (UserFn (CThrow :: body)) →
  apply_function (S k) (VFn t) args w
  = Raise Thrown (set_calls (calls w ++ [mkCall t VEmitter args]) w).
Proof. intros Ht. simpl. by rewrite Ht. Qed.

(** The loop over quiet entries followed by an entry whose application
    throws: the functions among the quiet entries are applied, then the
    exception leaves the loop. *)
Lemma emit_loop_quiet_then_raise k args it w0 rest v post e
  (after : list Call → World) :
  (∀ cs, apply_function (S k) v args (set_calls cs w0) = Raise e (after cs)) →
  truthy v = true →
  Forall (quiet w0) rest →
  ∀ pre (n : nat) listened cs,
    walked_elems w0 it = pre ++ rest ++ v :: post →
    length rest < n →
    emit_loop (apply_function (S k)) n it (length pre) args listened
      (set_calls cs w0)
    = Raise e (after (cs ++ applications args rest)).
Proof.
  intros Happ Hv Hall. induction Hall as [|x rest Hx _ IH];
    intros pre n listened cs Hw Hn.
  - destruct n as [|n]; [simpl in Hn; lia|].
    rewrite (emit_loop_apply _ _ _ _ _ _ _ v); [|by destruct it; simpl;
      simpl in Hw; rewrite Hw, list_lookup_middle|done].
    rewrite Happ. unfold applications. simpl. by rewrite app_nil_r.
  - destruct n as [|n]; [simpl in Hn; lia|]. simpl in Hn.
    assert (Hlook : walked_elems (set_calls cs w0) it !! length pre = Some x).
    { destruct it; simpl; simpl in Hw; by rewrite Hw, list_lookup_middle. }
    assert (Hnext : walked_elems w0 it = (pre ++ [x]) ++ rest ++ v :: post)
      by (by rewrite Hw, <- app_assoc).
    cbn [emit_loop]. rewrite Hlook.
    replace (S (length pre)) with (length (pre ++ [x]))
      by (rewrite length_app; simpl; lia).
    destruct Hx as [Hfalsy|(f & -> & Hf)].
    + rewrite Hfalsy. rewrite (IH (pre ++ [x])); [|done|lia].
      assert (fn_index x = None) as Hnone by (by destruct x).
      unfold applications. simpl. by rewrite Hnone.
    + cbn [truthy]. rewrite apply_passive by done. cbn [bind].
      change (set_calls _ (set_calls cs w0))
        with (set_calls (cs ++ [mkCall f VEmitter args]) w0).
      rewrite (IH (pre ++ [VFn f])); [|done|lia].
      unfold applications. simpl. by rewrite <- app_assoc.
Qed.

Lemma emit_at_raising_entry k (n : nat) args w event l1 v l2 e
  (after : list Call → World) :
  (∀ cs, apply_function (S k) v args (set_calls cs w) = Raise e (after cs)) →
  truthy v = true →
  emit_sequence w event = l1 ++ v :: l2 →
  Forall (quiet w) l1 →
  length l1 < n →
  emit (apply_function (S k)) n event args w
  = Raise e (after (calls w ++ applications args l1)).
Proof.
  intros Happ Hv Hseq Hall Hn. unfold emit, emit_sequence in *.
  assert (Hloop : ∀ it, walked_elems w it = l1 ++ v :: l2 →
            emit_loop (apply_function (S k)) n it 0 args false w
            = Raise e (after (calls w ++ applications args l1))).
  { intros it Hit.
    pose proof (emit_loop_quiet_then_raise k args it w l1 v l2 e after Happ
                  Hv Hall [] n false (calls w) Hit Hn) as Hr.
    by replace (set_calls (calls w) w) with w in Hr by (by destruct w). }
  destruct (listeners w event) as [a|].
  - by apply Hloop.
  - unfold unscoped, listenersAny in Hseq.
    destruct (all_ (self w)) as [b|]; [|by destruct l1].
    by apply Hloop.
Qed.

(** X11: entries that are falsy ([null], [undefined], [0], the empty
    string, which [onAny] accepts) are passed over by [emit] without
    error: it applies the functions among the entries it walks, in order,
    and returns [true] exactly when there is a function among them. *)
Theorem emit_passes_over_falsy_entries (fuel : nat) w event args
  (Hquiet : Forall (quiet w) (emit_sequence w event))
  (Hfuel : length (emit_sequence w event) < fuel) :
  Run.emit fuel event args w
  = Ret (bool_decide (omap fn_index (emit_sequence w event) ≠ []))
      (set_calls (calls w ++ applications args (emit_sequence w event)) w).
Proof.
  unfold Run.emit, emit, emit_sequence in *.
  destruct fuel as [|k]; [lia|].
  destruct (listeners w event) as [a|].
  - by rewrite (emit_loop_passive k args _ (concat_all w a) [] (S k) false w).
  - unfold unscoped, listenersAny in *.
    destruct (all_ (self w)) as [b|].
    + by rewrite (emit_loop_passive k args _ (read (arrays w) b) [] (S k)
                    false w).
    + unfold applications. simpl. by rewrite set_calls_same.
Qed.

(** X12: a truthy entry that is not a function (which [onAny] accepts)
    makes [emit] throw a TypeError when the loop reaches it: the
    functions before it have been applied, the entries after it are not
    visited, and no other state changes. *)
Theorem emit_throws_at_non_function_entry (fuel : nat) w event args l1 v l2
  (Hseq : emit_sequence w event = l1 ++ v :: l2)
  (Hquiet : Forall (quiet w) l1)
  (Htruthy : truthy v = true)
  (Hvalue : is_function v = false)
  (Hfuel : length l1 < fuel) :
  Run.emit fuel event args w
  = Raise (TypeError "apply is not a function")
      (set_calls (calls w ++ applications args l1) w).
Proof.
  unfold Run.emit. destruct fuel as [|k]; [lia|].
  apply (emit_at_raising_entry k (S k) args w event l1 v l2 _
           (λ cs, set_calls cs w)); try done.
  intros cs. by apply apply_non_function.
Qed.

(** X13: [emit] does not catch what a listener throws: the exception
    leaves [emit], the listeners before the throwing one have been
    applied, the throwing one is entered, and the listeners after it are
    not applied in this emission. *)
Theorem emit_lets_listener_exception_through (fuel : nat) w event args
  l1 t body l2
  (Hseq : emit_sequence w event = l1 ++ VFn t :: l2)
  (Hquiet : Forall (quiet w) l1)
  (Hthrows : funs w !! t = Some (UserFn (CThrow :: body)))
  (Hfuel : length l1 < fuel) :
  Run.emit fuel event args w
  = Raise Thrown
      (set_calls
         (calls w ++ applications args l1 ++ [mkCall t VEmitter args]) w).
Proof.
  unfold Run.emit. destruct fuel as [|k]; [lia|].
  rewrite (emit_at_raising_entry k (S k) args w event l1 (VFn t) l2 Thrown
             (λ cs, set_calls (cs ++ [mkCall t VEmitter args]) w));
    try done.
  - by rewrite <- app_assoc.
  - intros cs. by rewrite (apply_thrower k t body).
Qed.

(** ** Wrappers made by [many] *)

(** [many] with a positive amount and any listener value, where the leak
    test is not met: the world it returns. *)
Lemma many_world (fuel : nat) w event (n : Z) v :
  tidy w →
  Forall (passive w) (scoped w (EvStr "newListener")) →
  Forall (passive w) (unscoped w) →
  length (scoped w (EvStr "newListener")) + length (unscoped w) + 1 < fuel →
  (1 ≤ n)%Z →
  exceeds w event = false →
  ∃ a w', Run.many fuel event n v w = Ret VEmitter w'
          ∧ listeners w' event = Some a
          ∧ read (arrays w') a = scoped w event ++ [VFn (length (funs w))]
          ∧ funs w' = funs w ++ [HandlerInternal event n v]
          ∧ tidy w'
          ∧ unscoped w' = unscoped w
          ∧ all_ (self w') = all_ (self w).
Proof.
  intros Htidy Hnew Hu Hfuel Hn Hex.
  unfold Run.many, many. rewrite (proj2 (Z.leb_gt _ _)) by lia.
  set (w1 := set_funs _ w).
  change (on (apply_function fuel) fuel) with (Run.on fuel).
  assert (Hnew1 : Forall (passive w1) (scoped w1 (EvStr "newListener"))).
  { eapply Forall_impl; [exact Hnew|]. apply passive_more_funs. }
  assert (Hu1 : Forall (passive w1) (unscoped w1)).
  { eapply Forall_impl; [exact Hu|]. apply passive_more_funs. }
  destruct (on_world fuel w1 event (length (funs w)) Htidy Hnew1 Hu1 Hfuel)
    as (a & w' & Hw' & Hl & _ & Hread & _ & _ & _ & Hno & _).
  destruct (on_registers fuel w1 event (length (funs w)) Htidy Hnew1 Hu1
              Hfuel) as (w'' & Hw'' & Ht & Hf & _ & Hun & Hall & _).
  rewrite Hw' in Hw''. inversion Hw''; subst w''; clear Hw''.
  destruct (Hno Hex) as (Hon & _). rewrite Hon. cbn [bind].
  exists a, w'. split; [done|]. split; [exact Hl|]. split; [exact Hread|].
  split; [exact Hf|]. split; [exact Ht|]. split; [exact Hun|]. exact Hall.
Qed.

(** X14: [many] makes no check of its listener argument. For a positive
    amount and any value, function or not, it returns the emitter after
    storing a new wrapper function at the end of the list of the event;
    the wrapper's [origin] is the value given. (Stated where the leak
    test is not met.) *)
Theorem many_wraps_any_value (fuel : nat) w event (n : Z) v
  (Htidy : tidy w)
  (Hnew : Forall (passive w) (scoped w (EvStr "newListener")))
  (Hu : Forall (passive w) (unscoped w))
  (Hfuel : length (scoped w (EvStr "newListener")) + length (unscoped w) + 1
           < fuel)
  (Hn : (1 ≤ n)%Z)
  (Hex : exceeds w event = false) :
  ∃ w', Run.many fuel event n v w = Ret VEmitter w'
        ∧ scoped w' event = scoped w event ++ [VFn (length (funs w))]
        ∧ funs w' = funs w ++ [HandlerInternal event n v]
        ∧ origin w' (length (funs w)) = v
        ∧ unscoped w' = unscoped w.
Proof.
  destruct (many_world fuel w event n v Htidy Hnew Hu Hfuel Hn Hex)
    as (a & w' & Hmany & Hl & Hread & Hf & _ & Hun & _).
  exists w'. split; [exact Hmany|]. split.
  { unfold scoped at 1. by rewrite Hl. }
  split; [exact Hf|]. split; [|exact Hun].
  unfold origin. by rewrite Hf, list_lookup_middle.
Qed.

(** X15: when the value given to [many] is not a function and the
    wrapper is the only entry of the event, [emit] throws a TypeError from
    inside the wrapper. The wrapper has counted the emission all the
    same: with an amount of 1 (as [once] passes) it has already removed
    itself, so a second emission finds no listener. *)
Theorem emit_after_many_of_non_function (fuel : nat) w event (n : Z) v args
  (Htidy : tidy w)
  (Hnew : Forall (passive w) (scoped w (EvStr "newListener")))
  (Hu : Forall (passive w) (unscoped w))
  (Hfuel : length (scoped w (EvStr "newListener")) + length (unscoped w) + 2
           < fuel)
  (Hn : (1 ≤ n)%Z)
  (Hex : exceeds w event = false)
  (Hempty : scoped w event = [])
  (Hvalue : is_function v = false) :
  ∃ w' w'', Run.many fuel event n v w = Ret VEmitter w'
            ∧ Run.emit fuel event args w'
              = Raise (TypeError "apply is not a function") w''
            ∧ scoped w'' event
              = (if (n =? 1)%Z then [] else [VFn (length (funs w))])
            ∧ funs w''
              = funs w ++ [HandlerInternal event (n - 1) v]
            ∧ calls w'' = calls w' ++ [mkCall (length (funs w)) VEmitter args].
Proof.
  destruct (many_world fuel w event n v Htidy Hnew Hu) as
    (a & w' & Hmany & Hl & Hread & Hf & (T1 & _) & _); [lia|done..|].
  rewrite Hempty in Hread. simpl in Hread.
  pose proof (T1 _ _ Hl) as Halloc.
  set (h := length (funs w)) in *.
  set (after := λ cs : list Call,
         let w1 := set_funs (<[h := HandlerInternal event (n - 1) v]> (funs w'))
                     (set_calls (cs ++ [mkCall h VEmitter args]) w') in
         if (n - 1 =? 0)%Z
         then set_arrays (set_elems a [] (arrays w1)) w1 else w1).
  exists w', (after (calls w')). split; [exact Hmany|].
  assert (∃ k, fuel = S (S k)) as [k ->] by (exists (fuel - 2); lia).
  split.
  { unfold Run.emit.
    rewrite (emit_at_raising_entry (S k) (S (S k)) args w' event [] (VFn h)
               (concat_operand w')
               (TypeError "apply is not a function") after).
    - unfold applications. simpl. by rewrite app_nil_r.
    - intros cs.
      rewrite (apply_wrapper _ h event n v)
        by (simpl; by rewrite Hf, list_lookup_middle).
      unfold handlerInternal_body, after. cbn zeta.
      change (calls (set_calls cs w')) with cs.
      change (funs (set_calls (cs ++ [mkCall h VEmitter args])
                      (set_calls cs w'))) with (funs w').
      change (set_calls (cs ++ [mkCall h VEmitter args]) (set_calls cs w'))
        with (set_calls (cs ++ [mkCall h VEmitter args]) w').
      destruct (n - 1 =? 0)%Z.
      + unfold removeListener, off.
        change (listeners (set_funs _ _) event) with (listeners w' event).
        rewrite Hl. cbn [arrays set_funs set_calls]. rewrite Hread.
        cbn [off_scan].
        rewrite (off_test_match _ h (VFn h)) by (done || by left).
        cbn [bind]. by rewrite apply_non_function.
      + cbn [bind]. by rewrite apply_non_function.
    - done.
    - unfold emit_sequence, concat_all. by rewrite Hl, Hread.
    - constructor.
    - simpl. lia. }
  unfold after. cbn zeta.
  replace (n =? 1)%Z with (n - 1 =? 0)%Z
    by (destruct (Z.eqb_spec (n - 1) 0), (Z.eqb_spec n 1); lia).
  destruct (n - 1 =? 0)%Z; simpl.
  - split; [|split; [unfold h; by rewrite Hf, insert_last|done]].
    unfold scoped.
    change (listeners _ event) with (listeners w' event). rewrite Hl.
    simpl. by apply read_set_elems_eq.
  - split; [|split; [unfold h; by rewrite Hf, insert_last|done]].
    unfold scoped.
    change (listeners _ event) with (listeners w' event). by rewrite Hl.
Qed.

(** X16: a registration made with [many] (or [once]) is cancelled by
    [off] with the original listener: where the list of the event held
    only passive listeners other than [L], [many(e, n, L)] followed by
    [off(e, L)] removes the wrapper and gives back the entries the list
    had, so [L] is not applied by later emissions of [e]. *)
Theorem many_then_off_with_the_original (fuel : nat) w event (n : Z) L
  (Htidy : tidy w)
  (Hnew : Forall (passive w) (scoped w (EvStr "newListener")))
  (Hu : Forall (passive w) (unscoped w))
  (Hfuel : length (scoped w (EvStr "newListener")) + length (unscoped w) + 1
           < fuel)
  (Hn : (1 ≤ n)%Z)
  (Hex : exceeds w event = false)
  (Hothers : Forall (λ y, passive w y ∧ y ≠ VFn L) (scoped w event)) :
  ∃ w', chain [Run.many fuel event n (VFn L); off event (VFn L)] w
        = Ret VEmitter w'
        ∧ scoped w' event = scoped w event
        ∧ unscoped w' = unscoped w.
Proof.
  destruct (many_world fuel w event n (VFn L) Htidy Hnew Hu Hfuel Hn Hex)
    as (a & w1 & Hmany & Hl & Hread & Hf & (T1 & _ & T3) & Hun & _).
  pose proof (T1 _ _ Hl) as Halloc.
  exists (set_arrays (set_elems a (scoped w event ++ []) (arrays w1)) w1).
  unfold chain. cbn [foldl bind]. rewrite Hmany. cbn [bind].
  split; [|split].
  - unfold off. rewrite Hl, Hread.
    rewrite (off_scan_first_match w1 L (scoped w event)
               (VFn (length (funs w))) []); [done| |done|].
    + eapply Forall_impl; [exact Hothers|].
      intros y [(g & -> & Hg) Hne]. split; [done|].
      intros [Heq|(g' & Hg' & Ho)]; [done|].
      inversion Hg'; subst g'. unfold origin in Ho.
      by rewrite Hf, (lookup_app_l_Some _ _ _ _ Hg) in Ho.
    + right. exists (length (funs w)). split; [done|].
      unfold origin. by rewrite Hf, list_lookup_middle.
  - rewrite app_nil_r. unfold scoped at 1.
    change (listeners _ event) with (listeners w1 event). rewrite Hl.
    simpl. by apply read_set_elems_eq.
  - rewrite <- Hun. unfold unscoped, listenersAny. simpl.
    destruct (all_ (self w1)) as [b|] eqn:Hb; [|done].
    apply read_set_elems_ne. intros <-.
    by apply (proj2 (T3 a eq_refl) (splitNamespaces w event)).
Qed.

(** ** After removing everything *)

(** X17: after [removeAllListeners()] (or with an empty event name),
    [emit] of any event applies nothing and returns [false], whatever was
    registered before; the call record shows no application. *)
Theorem emit_after_removeAllListeners (fuel : nat) w opt_event event args
  (Hfuel : 2 ≤ fuel)
  (Hfalsy : from_option (λ e, truthy (event_value e)) false opt_event
            = false) :
  ∃ w', removeAllListeners opt_event w = Ret VEmitter w'
        ∧ Run.emit fuel event args w' = Ret false w'
        ∧ calls w' = calls w
        ∧ listenersAny w' = None.
Proof.
  exists (clear_everything w). split.
  { unfold removeAllListeners. destruct opt_event as [e|]; [|done].
    simpl in Hfalsy. by rewrite Hfalsy. }
  split; [|done].
  apply emit_nothing; [done| |done].
  unfold scoped, listeners, clear_everything, Trie.clear. cbn [self set_self
    set_all set_tree listenersTree_].
  by rewrite getKeyValue_empty.
Qed.

(** ** The further properties at concrete worlds *)

Lemma tidy_after_registrations (fuel : nat) c defs rs :
  Forall (λ r, defs !! reg_fn r = Some (UserFn [])) rs →
  length rs + 1 < fuel →
  tidy (register_all fuel rs (world c defs)).
Proof.
  intros Hrs Hfuel.
  apply (register_all_appends fuel (λ _, True)); [apply tidy_new|done|done|
    |constructor].
  intros p _. unfold scoped_at. simpl. rewrite getKeyValue_empty.
  split; [apply Forall_nil_2|simpl; lia].
Qed.

Lemma tidy_world_busy : tidy world_busy.
Proof. apply tidy_after_registrations; [by repeat constructor|simpl; lia]. Qed.

Lemma tidy_world_observed : tidy world_observed.
Proof. apply tidy_after_registrations; [by repeat constructor|simpl; lia]. Qed.

Lemma tidy_world_unscoped_twice : tidy world_unscoped_twice.
Proof. apply tidy_after_registrations; [by repeat constructor|simpl; lia]. Qed.

Lemma tidy_world_at_limit c : tidy (world_at_limit c).
Proof.
  assert (Ht : tidy (register_all 3 [RegOn (EvStr "x") 0]
                       (world c [UserFn []; UserFn []])))
    by (apply tidy_after_registrations; [by repeat constructor|simpl; lia]).
  exact Ht.
Qed.

Lemma passive_listed w (fs : list nat) :
  Forall (λ f, funs w !! f = Some (UserFn [])) fs →
  Forall (passive w) (VFn <$> fs).
Proof.
  induction 1 as [|f fs Hf _ IH]; simpl; [constructor|].
  constructor; [|done]. by exists f.
Qed.

Lemma mergeListenerArrays_appends_in_place_witness :
  fst (mergeListenerArrays_ 0 1 two_arrays) = 0
  ∧ read (snd (mergeListenerArrays_ 0 1 two_arrays)) 0
    = read two_arrays 0 ++ read two_arrays 1
  ∧ read (snd (mergeListenerArrays_ 0 1 two_arrays)) 1 = read two_arrays 1
  ∧ (∀ x, x ≠ 0 → snd (mergeListenerArrays_ 0 1 two_arrays) !! x
                  = two_arrays !! x)
  ∧ length (snd (mergeListenerArrays_ 0 1 two_arrays)) = length two_arrays
  ∧ warned <$> snd (mergeListenerArrays_ 0 1 two_arrays) !! 0
    = warned <$> two_arrays !! 0.
Proof.
  apply (mergeListenerArrays_appends_in_place two_arrays 0 1).
  - simpl. lia.
  - lia.
Defined.

Ltac passive_entries :=
  match goal with
  | |- Forall (passive ?w) ?l =>
      let l' := eval vm_compute in l in
      replace l with l' by (vm_compute; reflexivity);
      repeat (constructor;
              [eexists; split; [reflexivity|vm_compute; reflexivity]|]);
      try constructor
  end.

Ltac enough_fuel := apply Nat.ltb_lt; vm_compute; reflexivity.

Lemma warning_not_standard : "warning" ∉ standard_console.
Proof.
  intros Hin. unfold standard_console in Hin.
  repeat (apply elem_of_cons in Hin as [Hin|Hin]; [discriminate Hin|]).
  by apply elem_of_nil in Hin.
Qed.

Lemma on_appends_to_the_same_list_witness :
  ∃ w', world_of (Run.on 5 (EvStr "y") (VFn 0) world_observed) = Some w'
        ∧ scoped w' (EvStr "y") = scoped world_observed (EvStr "y") ++ [VFn 0]
        ∧ listeners w' (EvStr "y")
          = Some (default (length (arrays world_observed))
                    (listeners world_observed (EvStr "y"))).
Proof.
  apply (on_appends_to_the_same_list 5 world_observed (EvStr "y") 0).
  - apply tidy_world_observed.
  - passive_entries.
  - passive_entries.
  - enough_fuel.
Defined.


Lemma on_warns_when_limit_first_exceeded_witness :
  ∃ w', Run.on 3 (EvStr "x") (VFn 1) (world_at_limit console_with_warning)
        = Ret VEmitter w'
        ∧ printed w'
          = printed (world_at_limit console_with_warning)
            ++ (if exceeds (world_at_limit console_with_warning) (EvStr "x")
                then [mkDiag "warning"
                        (length (scoped (world_at_limit console_with_warning)
                                   (EvStr "x")) + 1)
                        (EvStr "x")]
                else [])
        ∧ was_warned w' (EvStr "x")
          = was_warned (world_at_limit console_with_warning) (EvStr "x")
            || exceeds (world_at_limit console_with_warning) (EvStr "x")
        ∧ (was_warned (world_at_limit console_with_warning) (EvStr "x")
           || exceeds (world_at_limit console_with_warning) (EvStr "x")
           = true →
           exceeds w' (EvStr "x") = false).
Proof.
  apply (on_warns_when_limit_first_exceeded 3
           (world_at_limit console_with_warning) (EvStr "x") 1).
  - apply tidy_world_at_limit.
  - passive_entries.
  - passive_entries.
  - enough_fuel.
  - apply list_elem_of_here.
Defined.

Lemma on_throws_where_console_has_no_warning_witness :
  exceeds (world_at_limit standard_console) (EvStr "x") = true
  ∧ ∃ w', Run.on 3 (EvStr "x") (VFn 1) (world_at_limit standard_console)
          = (if exceeds (world_at_limit standard_console) (EvStr "x")
             then Raise (TypeError "console.warning is not a function") w'
             else Ret VEmitter w')
          ∧ scoped w' (EvStr "x")
            = scoped (world_at_limit standard_console) (EvStr "x") ++ [VFn 1]
          ∧ printed w' = printed (world_at_limit standard_console)
          ∧ was_warned w' (EvStr "x")
            = was_warned (world_at_limit standard_console) (EvStr "x")
          ∧ (exceeds (world_at_limit standard_console) (EvStr "x") = true →
             exceeds w' (EvStr "x") = true).
Proof.
  split; [vm_compute; reflexivity|].
  apply (on_throws_where_console_has_no_warning 3
           (world_at_limit standard_console) (EvStr "x") 1).
  - apply tidy_world_at_limit.
  - passive_entries.
  - passive_entries.
  - enough_fuel.
  - replace (console (world_at_limit standard_console))
      with standard_console by (vm_compute; reflexivity).
    apply warning_not_standard.
Defined.

Lemma on_leaves_other_lists_witness :
  ∃ w', world_of (Run.on 5 (EvStr "y") (VFn 0) world_observed) = Some w'
        ∧ (∀ other, splitNamespaces world_observed other
                    ≠ splitNamespaces world_observed (EvStr "y") →
                    scoped w' other = scoped world_observed other)
        ∧ unscoped w' = unscoped world_observed
        ∧ listenersAny w' = listenersAny world_observed
        ∧ funs w' = funs world_observed
        ∧ tidy w'.
Proof.
  apply (on_leaves_other_lists 5 world_observed (EvStr "y") 0).
  - apply tidy_world_observed.
  - passive_entries.
  - passive_entries.
  - enough_fuel.
Defined.

Lemma onAny_stores_any_value_witness :
  ∃ w', onAny (VNum 42) world_busy = Ret VEmitter w'
        ∧ unscoped w' = unscoped world_busy ++ [VNum 42]
        ∧ listenersAny w'
          = Some (default (length (arrays world_busy))
                    (listenersAny world_busy))
        ∧ (∀ event, scoped w' event = scoped world_busy event)
        ∧ calls w' = calls world_busy ∧ printed w' = printed world_busy
        ∧ tidy w'.
Proof.
  apply (onAny_stores_any_value world_busy (VNum 42)).
  apply tidy_world_busy.
Defined.

Lemma offAny_removes_first_identical_entry_witness :
  ∃ w', offAny (VFn 1) world_unscoped_twice = Ret VEmitter w'
        ∧ unscoped w' = [] ++ [VFn 2; VFn 1]
        ∧ listenersAny w' = listenersAny world_unscoped_twice
        ∧ (∀ event, scoped w' event = scoped world_unscoped_twice event)
        ∧ tidy w'.
Proof.
  apply (offAny_removes_first_identical_entry world_unscoped_twice 1 []
           [VFn 2; VFn 1]).
  - apply tidy_world_unscoped_twice.
  - vm_compute. reflexivity.
  - apply not_elem_of_nil.
Defined.

Lemma onAny_then_offAny_witness :
  ∃ w', chain [onAny (VFn 0); offAny (VFn 0)] world_busy = Ret VEmitter w'
        ∧ unscoped w' = unscoped world_busy
        ∧ listenersAny w'
          = Some (default (length (arrays world_busy))
                    (listenersAny world_busy))
        ∧ (∀ event, scoped w' event = scoped world_busy event).
Proof.
  apply (onAny_then_offAny world_busy 0).
  - apply tidy_world_busy.
  - replace (unscoped world_busy) with [VFn 2] by (vm_compute; reflexivity).
    intros Hin. apply list_elem_of_singleton in Hin. discriminate Hin.
Defined.

Lemma on_then_off_witness :
  ∃ w1 w2, world_of (Run.on 4 (EvStr "y") (VFn 0) world_busy) = Some w1
           ∧ off (EvStr "y") (VFn 0) w1 = Ret VEmitter w2
           ∧ scoped w2 (EvStr "y") = scoped world_busy (EvStr "y")
           ∧ listeners w2 (EvStr "y")
             = Some (default (length (arrays world_busy))
                       (listeners world_busy (EvStr "y")))
           ∧ (∀ other, splitNamespaces world_busy other
                       ≠ splitNamespaces world_busy (EvStr "y") →
                       scoped w2 other = scoped world_busy other)
           ∧ unscoped w2 = unscoped world_busy.
Proof.
  apply (on_then_off 4 world_busy (EvStr "y") 0).
  - apply tidy_world_busy.
  - passive_entries.
  - passive_entries.
  - enough_fuel.
  - replace (scoped world_busy (EvStr "y")) with [VFn 1]
      by (vm_compute; reflexivity).
    constructor; [|constructor]. split; [reflexivity|].
    intros [Heq|(g & Hg & Ho)]; [discriminate Heq|].
    inversion Hg; subst g. vm_compute in Ho. discriminate Ho.
Defined.

Lemma emit_passes_over_falsy_entries_witness :
  emit_sequence world_with_null (EvStr "x") = [VNull; VFn 0]
  ∧ Run.emit 3 (EvStr "x") [VNum 7] world_with_null
    = Ret (bool_decide
             (omap fn_index (emit_sequence world_with_null (EvStr "x")) ≠ []))
        (set_calls
           (calls world_with_null
            ++ applications [VNum 7]
                 (emit_sequence world_with_null (EvStr "x")))
           world_with_null).
Proof.
  assert (Hseq : emit_sequence world_with_null (EvStr "x") = [VNull; VFn 0])
    by (vm_compute; reflexivity).
  split; [exact Hseq|].
  apply (emit_passes_over_falsy_entries 3 world_with_null (EvStr "x")
           [VNum 7]).
  - rewrite Hseq. constructor; [by left|]. constructor; [|constructor].
    right. exists 0. split; [reflexivity|]. vm_compute. reflexivity.
  - rewrite Hseq. simpl. lia.
Defined.

Lemma emit_throws_at_non_function_entry_witness :
  Run.emit 3 (EvStr "x") [] world_with_number
  = Raise (TypeError "apply is not a function")
      (set_calls (calls world_with_number ++ applications [] [VFn 0])
         world_with_number).
Proof.
  apply (emit_throws_at_non_function_entry 3 world_with_number (EvStr "x")
           [] [VFn 0] (VNum 42) [VFn 0]).
  - vm_compute. reflexivity.
  - constructor; [|constructor].
    right. exists 0. split; [reflexivity|]. vm_compute. reflexivity.
  - reflexivity.
  - reflexivity.
  - simpl. lia.
Defined.

Lemma emit_lets_listener_exception_through_witness :
  Run.emit 3 (EvStr "x") [] world_with_thrower
  = Raise Thrown
      (set_calls
         (calls world_with_thrower ++ applications [] [VFn 0]
          ++ [mkCall 1 VEmitter []])
         world_with_thrower).
Proof.
  apply (emit_lets_listener_exception_through 3 world_with_thrower
           (EvStr "x") [] [VFn 0] 1 [] [VFn 0; VNull]).
  - vm_compute. reflexivity.
  - constructor; [|constructor].
    right. exists 0. split; [reflexivity|]. vm_compute. reflexivity.
  - vm_compute. reflexivity.
  - simpl. lia.
Defined.

Lemma many_wraps_any_value_witness :
  ∃ w', Run.many 4 (EvStr "x") 2 (VStr "oops") world_busy = Ret VEmitter w'
        ∧ scoped w' (EvStr "x")
          = scoped world_busy (EvStr "x") ++ [VFn (length (funs world_busy))]
        ∧ funs w'
          = funs world_busy ++ [HandlerInternal (EvStr "x") 2 (VStr "oops")]
        ∧ origin w' (length (funs world_busy)) = VStr "oops"
        ∧ unscoped w' = unscoped world_busy.
Proof.
  apply (many_wraps_any_value 4 world_busy (EvStr "x") 2 (VStr "oops")).
  - apply tidy_world_busy.
  - passive_entries.
  - passive_entries.
  - enough_fuel.
  - lia.
  - vm_compute. reflexivity.
Defined.

Lemma emit_after_many_of_non_function_witness :
  ∃ w' w'', Run.many 5 (EvStr "x") 1 (VNum 42) world_busy = Ret VEmitter w'
            ∧ Run.emit 5 (EvStr "x") [] w'
              = Raise (TypeError "apply is not a function") w''
            ∧ scoped w'' (EvStr "x")
              = (if (1 =? 1)%Z then []
                 else [VFn (length (funs world_busy))])
            ∧ funs w''
              = funs world_busy
                ++ [HandlerInternal (EvStr "x") (1 - 1) (VNum 42)]
            ∧ calls w''
              = calls w' ++ [mkCall (length (funs world_busy)) VEmitter []].
Proof.
  apply (emit_after_many_of_non_function 5 world_busy (EvStr "x") 1
           (VNum 42) []).
  - apply tidy_world_busy.
  - passive_entries.
  - passive_entries.
  - enough_fuel.
  - lia.
  - vm_compute. reflexivity.
  - vm_compute. reflexivity.
  - reflexivity.
Defined.

Lemma many_then_off_with_the_original_witness :
  ∃ w', chain [Run.many 4 (EvStr "y") 3 (VFn 0); off (EvStr "y") (VFn 0)]
          world_busy = Ret VEmitter w'
        ∧ scoped w' (EvStr "y") = scoped world_busy (EvStr "y")
        ∧ unscoped w' = unscoped world_busy.
Proof.
  apply (many_then_off_with_the_original 4 world_busy (EvStr "y") 3 0).
  - apply tidy_world_busy.
  - passive_entries.
  - passive_entries.
  - enough_fuel.
  - lia.
  - vm_compute. reflexivity.
  - replace (scoped world_busy (EvStr "y")) with [VFn 1]
      by (vm_compute; reflexivity).
    constructor; [|constructor]. split; [|discriminate].
    exists 1. split; [reflexivity|]. vm_compute. reflexivity.
Defined.

Lemma emit_after_removeAllListeners_witness :
  ∃ w', removeAllListeners None world_busy = Ret VEmitter w'
        ∧ Run.emit 2 (EvStr "y") [] w' = Ret false w'
        ∧ calls w' = calls world_busy
        ∧ listenersAny w' = None.
Proof.
  apply (emit_after_removeAllListeners 2 world_busy None (EvStr "y") []).
  - lia.
  - reflexivity.
Defined.
